(** * BayesianPAC: the one-subject inference pipeline of [BPAC_OneSubject.ipynb]

    A shallow embedding of the notebook's main pipeline (segmentation,
    surrogate z-scores and the Bonferroni threshold, the pooled population
    of the density fit, the prior, the likelihood, the evidence and the
    posterior with its aggregation), and the properties of it.

    Numbers.  A Python/NumPy float is modelled by [npfloat]: an exact
    rational, or one of the IEEE special values [+inf], [-inf], [nan].
    Rounding is not modelled (a finite result is the exact rational one) and
    the two zeros are not told apart; what is modelled is which operations
    produce and propagate the special values, since NumPy divides by zero
    silently.  A Python scalar division raises [ZeroDivisionError] instead;
    such code returns a [result].

    Arrays.  A NumPy array of floats is modelled by its indexing function
    ([array1], [array2], [array3]); its shape is carried by the loop bounds
    [G_nChannels] and [G_nFragments], and the code never indexes outside
    them.  An element assignment is a function update. *)

From Stdlib Require Import List Arith Lia Bool ZArith QArith Qabs Lqa.
Import ListNotations.

Set Implicit Arguments.
Close Scope Q_scope.

(** ** Python exceptions and results *)

Inductive exn : Type :=
| ZeroDivisionError
| ValueError.

Inductive result (A : Type) : Type :=
| Ok (a : A)
| Raise (e : exn).

Arguments Ok {A} a.
Arguments Raise {A} e.

Definition bind {A B : Type} (r : result A) (k : A -> result B) : result B :=
  match r with
  | Ok a => k a
  | Raise e => Raise e
  end.

Notation "x <- r ;; k" := (bind r (fun x => k))
  (at level 61, r at next level, right associativity).

(** ** Floats *)

Module NpFloat.

Local Open Scope Q_scope.

Inductive npfloat : Type :=
| Fin (q : Q)
| PInf
| NInf
| NaN.

Definition Qltb (a b : Q) : bool := negb (Qle_bool b a).

Definition inf_of (positive : bool) : npfloat := if positive then PInf else NInf.

Definition of_nat (n : nat) : npfloat := Fin (inject_Z (Z.of_nat n)).

Definition fopp (x : npfloat) : npfloat :=
  match x with
  | Fin q => Fin (- q)
  | PInf => NInf
  | NInf => PInf
  | NaN => NaN
  end.

Definition fadd (x y : npfloat) : npfloat :=
  match x, y with
  | NaN, _ | _, NaN => NaN
  | Fin a, Fin b => Fin (a + b)
  | PInf, NInf | NInf, PInf => NaN
  | PInf, _ | _, PInf => PInf
  | NInf, _ | _, NInf => NInf
  end.

Definition fsub (x y : npfloat) : npfloat := fadd x (fopp y).

Definition fmul (x y : npfloat) : npfloat :=
  match x, y with
  | NaN, _ | _, NaN => NaN
  | Fin a, Fin b => Fin (a * b)
  | Fin a, PInf | PInf, Fin a => if Qeq_bool a 0 then NaN else inf_of (Qltb 0 a)
  | Fin a, NInf | NInf, Fin a => if Qeq_bool a 0 then NaN else inf_of (Qltb a 0)
  | PInf, PInf | NInf, NInf => PInf
  | PInf, NInf | NInf, PInf => NInf
  end.

(** NumPy's true division: [x/0] is an infinity of the sign of [x], [0/0]
    and [inf/inf] are [nan]; no exception is raised. *)
Definition fdiv (x y : npfloat) : npfloat :=
  match x, y with
  | NaN, _ | _, NaN => NaN
  | Fin a, Fin b =>
      if Qeq_bool b 0
      then (if Qeq_bool a 0 then NaN else inf_of (Qltb 0 a))
      else Fin (a / b)
  | Fin _, PInf | Fin _, NInf => Fin 0
  | PInf, Fin b => inf_of (Qle_bool 0 b)
  | NInf, Fin b => inf_of (Qltb b 0)
  | PInf, PInf | PInf, NInf | NInf, PInf | NInf, NInf => NaN
  end.

Definition fabs (x : npfloat) : npfloat :=
  match x with
  | Fin q => Fin (Qabs q)
  | PInf | NInf => PInf
  | NaN => NaN
  end.

(** [x > y]; every comparison with [nan] is false. *)
Definition fgt (x y : npfloat) : bool :=
  match x, y with
  | Fin a, Fin b => Qltb b a
  | PInf, Fin _ | PInf, NInf | Fin _, NInf => true
  | _, _ => false
  end.

(** [x <= y]. *)
Definition fle (x y : npfloat) : bool :=
  match x, y with
  | Fin a, Fin b => Qle_bool a b
  | NInf, Fin _ | NInf, PInf | Fin _, PInf | NInf, NInf | PInf, PInf => true
  | _, _ => false
  end.

(** [x == y]; [nan == nan] is false. *)
Definition feqb (x y : npfloat) : bool :=
  match x, y with
  | Fin a, Fin b => Qeq_bool a b
  | PInf, PInf | NInf, NInf => true
  | _, _ => false
  end.

(** [x != y]. *)
Definition fneb (x y : npfloat) : bool := negb (feqb x y).

(** [np.sum] of a one-dimensional array. *)
Definition np_sum (xs : list npfloat) : npfloat := fold_left fadd xs (Fin 0).

(** The same value: equal rationals, or the same special value.  (This is
    not Python's [==], which [feqb] is.) *)
Definition feq (x y : npfloat) : Prop :=
  match x, y with
  | Fin a, Fin b => a == b
  | PInf, PInf | NInf, NInf | NaN, NaN => True
  | _, _ => False
  end.

Definition is_finite (x : npfloat) : bool :=
  match x with
  | Fin _ => true
  | _ => false
  end.

Definition is_infinite (x : npfloat) : bool :=
  match x with
  | PInf | NInf => true
  | _ => false
  end.

(** The rational of a finite float. *)
Definition to_Q (x : npfloat) : Q :=
  match x with
  | Fin q => q
  | _ => 0
  end.

(** Zero or [nan]: what a product or a quotient with a zero numerator is. *)
Definition zero_or_nan (x : npfloat) : Prop := x = NaN \/ exists q, x = Fin q /\ q == 0.

(** A finite float that is not negative. *)
Definition finite_nonneg (x : npfloat) : Prop := exists q, x = Fin q /\ 0 <= q.

End NpFloat.

Export NpFloat.

Infix "~=" := feq (at level 70, no associativity).

(** ** Arrays and loops *)

Definition array1 : Type := nat -> npfloat.
Definition array2 : Type := nat -> nat -> npfloat.
Definition array3 : Type := nat -> nat -> nat -> npfloat.

Definition np_zeros1 : array1 := fun _ => Fin 0.
Definition np_zeros2 : array2 := fun _ _ => Fin 0.
Definition np_zeros3 : array3 := fun _ _ _ => Fin 0.

(** [a[i] = v] *)
Definition set1 (a : array1) (i : nat) (v : npfloat) : array1 :=
  fun i' => if i' =? i then v else a i'.

(** [a[i, j, k] = v] *)
Definition set3 (a : array3) (i j k : nat) (v : npfloat) : array3 :=
  fun i' j' k' => if (i' =? i) && (j' =? j) && (k' =? k) then v else a i' j' k'.

(** [a[:, :, k] = m] *)
Definition set_frag (a : array3) (k : nat) (m : array2) : array3 :=
  fun i' j' k' => if k' =? k then m i' j' else a i' j' k'.

(** [a[:, k] = v] *)
Definition set_col (a : array2) (k : nat) (v : array1) : array2 :=
  fun j' k' => if k' =? k then v j' else a j' k'.

(** [a[:, :, k]] *)
Definition frag_of (a : array3) (k : nat) : array2 := fun i j => a i j k.

Definition range (n : nat) : list nat := seq 0 n.

(** [for k in range(n): s = body k s] *)
Definition for_range {S : Type} (n : nat) (body : nat -> S -> S) (s : S) : S :=
  fold_left (fun s k => body k s) (range n) s.

(** The loop nest shared by the notebook's element-wise cells:
    [for frag in range(F): for i in range(n): for j in range(n): ...] *)
Definition loop3 {S : Type} (F n : nat) (body : nat -> nat -> nat -> S -> S) (s : S) : S :=
  for_range F (fun frag =>
    for_range n (fun i =>
      for_range n (fun j => body frag i j))) s.

(** [a.flatten()] of an array of shape [(n, n, F)], in C order. *)
Definition flatten3 (n F : nat) (a : array3) : list npfloat :=
  flat_map (fun i => flat_map (fun j => map (fun frag => a i j frag) (range F)) (range n))
           (range n).

(** ** Step 3: segmentation *)

(** [l[a:b]] for [0 <= a <= b]; like Python's, the slice is clipped to the
    list. *)
Definition py_slice {A : Type} (a b : nat) (l : list A) : list A :=
  firstn (b - a) (skipn a l).

(** [L_fLength = int(np.shape(npy_data)[1]/G_nFragments)]: a Python division
    of two ints, which raises on a zero divisor, then truncation (the
    quotient is a float; for lengths below 2^53 its truncation is the integer
    quotient). *)
Definition L_fLength (T G_nFragments : nat) : result nat :=
  if G_nFragments =? 0 then Raise ZeroDivisionError else Ok (T / G_nFragments).

(** The fragments of a [channels x time] array, as [channel][fragment][sample]:
    [x_fragments[:, i, :] = x[:, 0, i * L_fLength: (i + 1) * L_fLength]]. *)
Definition fragments_of {A : Type} (G_nFragments L : nat) (x : list (list A))
  : list (list (list A)) :=
  map (fun channel =>
         map (fun i => py_slice (i * L) ((i + 1) * L) channel) (range G_nFragments))
      x.

(** The segmentation cell: the fragments of the phase and of the amplitude. *)
Definition Segmenter {A : Type} (G_nFragments T : nat) (ip_theta ia_gamma : list (list A))
  : result (list (list (list A)) * list (list (list A))) :=
  L <- L_fLength T G_nFragments ;;
  Ok (fragments_of G_nFragments L ip_theta, fragments_of G_nFragments L ia_gamma).

(** ** Steps 4 and 5: the inference engine *)

Section Pipeline.

(** What NumPy and SciPy provide and the notebook does not define:
    [np.sqrt] (inside [np.std]), [scipy.stats.norm.ppf], and the density
    that [scipy.stats.gaussian_kde] fits to a dataset of two or more
    elements (its value at a point; the fit itself may still fail). *)
Variable np_sqrt : npfloat -> npfloat.
Variable norm_ppf : npfloat -> npfloat.
Variable scipy_kde_fit : list npfloat -> result (npfloat -> npfloat).

(** The notebook's global configuration. *)
Variable G_nChannels : nat.
Variable G_nFragments : nat.
Variable G_Alpha : Q.

(** [np.mean(xs)] *)
Definition np_mean (xs : list npfloat) : npfloat :=
  fdiv (np_sum xs) (of_nat (length xs)).

(** [np.std(xs)]: [sqrt(mean(abs(x - x.mean())**2))] *)
Definition np_std (xs : list npfloat) : npfloat :=
  let m := np_mean xs in
  np_sqrt (np_mean (map (fun x => fmul (fabs (fsub x m)) (fabs (fsub x m))) xs)).

(** *** The Bonferroni threshold *)

(** [L_alpha_Bonferroni = G_Alpha/G_nFragments] (Python scalars). *)
Definition L_alpha_Bonferroni : result Q :=
  if G_nFragments =? 0 then Raise ZeroDivisionError
  else Ok (G_Alpha / inject_Z (Z.of_nat G_nFragments))%Q.

(** [G_zThreshold_Bonferroni = norm.ppf(1 - L_alpha_Bonferroni)] *)
Definition G_zThreshold_Bonferroni : result npfloat :=
  a <- L_alpha_Bonferroni ;;
  Ok (norm_ppf (Fin (1 - a)%Q)).

(** *** z-scores and significant values *)

(** The two arrays that the z-score loop fills. *)
Record zstate : Type := mk_zstate {
  z_scores_fragments : array3;
  significant_pac_values_fragments : array3
}.

(** The z-score of one observation:
    [0 if surrogate_std == 0 else (real_pac - surrogate_mean) / surrogate_std]. *)
Definition z_score (real_pac : npfloat) (surrogates : list npfloat) : npfloat :=
  let surrogate_mean := np_mean surrogates in
  let surrogate_std := np_std surrogates in
  if feqb surrogate_std (Fin 0) then Fin 0
  else fdiv (fsub real_pac surrogate_mean) surrogate_std.

(** The test [abs(z) > G_zThreshold_Bonferroni]. *)
Definition exceeds (z zThreshold : npfloat) : bool := fgt (fabs z) zThreshold.

(** The body of the loop, at [(frag, i, j)]. *)
Definition zscore_body (zThreshold : npfloat)
           (pac_values_fragments : array3)
           (surrogate_pac_values_fragments : nat -> nat -> nat -> list npfloat)
           (frag i j : nat) (st : zstate) : zstate :=
  let real_pac := pac_values_fragments i j frag in
  let z := set3 (z_scores_fragments st) i j frag
                (z_score real_pac (surrogate_pac_values_fragments i j frag)) in
  let s := if exceeds (z i j frag) zThreshold
           then set3 (significant_pac_values_fragments st) i j frag
                     (pac_values_fragments i j frag)
           else significant_pac_values_fragments st in
  mk_zstate z s.

(** The significance filter: both arrays start as [np.zeros]. *)
Definition significance_filter (zThreshold : npfloat)
           (pac_values_fragments : array3)
           (surrogate_pac_values_fragments : nat -> nat -> nat -> list npfloat)
  : zstate :=
  loop3 G_nFragments G_nChannels
        (zscore_body zThreshold pac_values_fragments surrogate_pac_values_fragments)
        (mk_zstate np_zeros3 np_zeros3).

(** *** The pooled population and the density fit *)

(** [flat = significant.flatten(); flat = flat[flat > 0] * 1e5] *)
Definition significant_pac_values_flat_fragments (significant : array3) : list npfloat :=
  map (fun v => fmul v (Fin 100000))
      (filter (fun v => fgt v (Fin 0)) (flatten3 G_nChannels G_nFragments significant)).

(** [scipy.stats.gaussian_kde(dataset)]: SciPy refuses a dataset of fewer
    than two elements with a [ValueError] before fitting anything; on a
    larger one the outcome is that of the fit. *)
Definition gaussian_kde (dataset : list npfloat) : result (npfloat -> npfloat) :=
  if length dataset <=? 1 then Raise ValueError else scipy_kde_fit dataset.

(** [kde_fragments = gaussian_kde(np.abs(flat))] *)
Definition kde_fragments (significant : array3) : result (npfloat -> npfloat) :=
  gaussian_kde (map fabs (significant_pac_values_flat_fragments significant)).

(** *** The prior P(i) *)

Definition prior_body (significant : array3) (frag i j : nat) (counts : array1) : array1 :=
  if fgt (significant i j frag) (Fin 0)
  then set1 counts i (fadd (counts i) (Fin 1))
  else counts.

Definition significant_pac_counts_by_destination (significant : array3) : array1 :=
  loop3 G_nFragments G_nChannels (prior_body significant) np_zeros1.

(** [np.sum(counts)] over the [G_nChannels] entries. *)
Definition total_significant_pacs (significant : array3) : npfloat :=
  np_sum (map (significant_pac_counts_by_destination significant) (range G_nChannels)).

(** [P_i = counts / total]: an array division, unguarded. *)
Definition P_i (significant : array3) : array1 :=
  fun i => fdiv (significant_pac_counts_by_destination significant i)
                (total_significant_pacs significant).

(** *** The likelihood P(x|i) *)

Definition likelihood_body (kde : npfloat -> npfloat) (significant : array3)
           (frag i j : nat) (P : array3) : array3 :=
  if fgt (significant i j frag) (Fin 0)
  then set3 P i j frag (kde (fmul (significant i j frag) (Fin 100000)))
  else set3 P i j frag (Fin 0).

(** The density evaluated at every significant value, before normalisation. *)
Definition P_x_given_i_raw (kde : npfloat -> npfloat) (significant : array3) : array3 :=
  loop3 G_nFragments G_nChannels (likelihood_body kde significant) np_zeros3.

(** [np.sum(m, axis=0)]: for each second index, the sum over the first. *)
Definition np_sum_axis0 (m : array2) : array1 :=
  fun j => np_sum (map (fun i => m i j) (range G_nChannels)).

(** [np.divide(m, v, out=np.zeros_like(m), where=v != 0)]: [v] and the mask
    are broadcast along the last axis. *)
Definition np_divide_where_nonzero (m : array2) (v : array1) : array2 :=
  fun i j => if fneb (v j) (Fin 0) then fdiv (m i j) (v j) else Fin 0.

(** [(m > 0).astype(int)] *)
Definition positive_indicator (m : array2) : array2 :=
  fun i j => of_nat (if fgt (m i j) (Fin 0) then 1 else 0).

(** [counts += ind] *)
Definition add2 (counts ind : array2) : array2 :=
  fun i j => fadd (counts i j) (ind i j).

Definition normalize_body (frag : nat) (st : array3 * array2) : array3 * array2 :=
  let (P, counts) := st in
  let P_x_given_i_sum := np_sum_axis0 (frag_of P frag) in
  let P' := set_frag P frag (np_divide_where_nonzero (frag_of P frag) P_x_given_i_sum) in
  (P', add2 counts (positive_indicator (frag_of P' frag))).

Definition normalize_loop (kde : npfloat -> npfloat) (significant : array3)
  : array3 * array2 :=
  for_range G_nFragments normalize_body (P_x_given_i_raw kde significant, np_zeros2).

(** The normalised likelihood. *)
Definition P_x_given_i (kde : npfloat -> npfloat) (significant : array3) : array3 :=
  fst (normalize_loop kde significant).

Definition P_x_given_i_significant_counts (kde : npfloat -> npfloat) (significant : array3)
  : array2 :=
  snd (normalize_loop kde significant).

(** [P_x_given_i_mean = counts / G_nFragments] *)
Definition P_x_given_i_mean (kde : npfloat -> npfloat) (significant : array3) : array2 :=
  fun i j => fdiv (P_x_given_i_significant_counts kde significant i j) (of_nat G_nFragments).

(** *** The evidence P(x) *)

(** [np.dot(v, m)] *)
Definition np_dot (v : array1) (m : array2) : array1 :=
  fun j => np_sum (map (fun i => fmul (v i) (m i j)) (range G_nChannels)).

Definition P_x (kde : npfloat -> npfloat) (significant : array3) : array2 :=
  for_range G_nFragments
    (fun frag P_x => set_col P_x frag (np_dot (P_i significant)
                                              (frag_of (P_x_given_i kde significant) frag)))
    np_zeros2.

(** *** The posterior P(i|x) and its aggregation *)

(** [(m.T * v).T] *)
Definition scale_rows (m : array2) (v : array1) : array2 :=
  fun i j => fmul (m i j) (v i).

Definition posterior_body (kde : npfloat -> npfloat) (significant : array3)
           (frag : nat) (st : array3 * array2) : array3 * array2 :=
  let (P, counts) := st in
  let P1 := set_frag P frag
              (scale_rows (frag_of (P_x_given_i kde significant) frag) (P_i significant)) in
  let P2 := set_frag P1 frag
              (np_divide_where_nonzero (frag_of P1 frag)
                                       (fun j => P_x kde significant j frag)) in
  (P2, add2 counts (positive_indicator (frag_of P2 frag))).

Definition posterior_loop (kde : npfloat -> npfloat) (significant : array3)
  : array3 * array2 :=
  for_range G_nFragments (posterior_body kde significant) (np_zeros3, np_zeros2).

Definition P_i_given_x_fragments (kde : npfloat -> npfloat) (significant : array3) : array3 :=
  fst (posterior_loop kde significant).

Definition P_i_given_x_significant_counts (kde : npfloat -> npfloat) (significant : array3)
  : array2 :=
  snd (posterior_loop kde significant).

(** [P_i_given_x_mean = counts / G_nFragments]: the reported matrix. *)
Definition P_i_given_x_mean (kde : npfloat -> npfloat) (significant : array3) : array2 :=
  fun i j => fdiv (P_i_given_x_significant_counts kde significant i j) (of_nat G_nFragments).

(** *** The whole run *)

Definition BPAC_OneSubject (pac_values_fragments : array3)
           (surrogate_pac_values_fragments : nat -> nat -> nat -> list npfloat)
  : result array2 :=
  zThreshold <- G_zThreshold_Bonferroni ;;
  let significant :=
    significant_pac_values_fragments
      (significance_filter zThreshold pac_values_fragments surrogate_pac_values_fragments) in
  kde <- kde_fragments significant ;;
  Ok (P_i_given_x_mean kde significant).

End Pipeline.

(** ** Specification vocabulary *)

(** [x_fragments] cuts every channel of [x] into [F] consecutive pieces of
    length [L]: put end to end, the pieces of a channel are its first
    [F * L] samples, in order. *)
Definition fragmented {A : Type} (F L : nat) (x : list (list A))
           (x_fragments : list (list (list A))) : Prop :=
  length x_fragments = length x /\
  forall c channel, nth_error x c = Some channel ->
    exists pieces,
      nth_error x_fragments c = Some pieces /\
      length pieces = F /\
      (forall piece, In piece pieces -> length piece = L) /\
      concat pieces = firstn (F * L) channel.

(** The number of observations that the significance filter declares
    significant at the threshold [zThreshold]: the entries of the z-score
    array that it fills which pass its test. *)
Definition count_significant (np_sqrt : npfloat -> npfloat) (G_nChannels G_nFragments : nat)
           (zThreshold : npfloat) (pac_values_fragments : array3)
           (surrogate_pac_values_fragments : nat -> nat -> nat -> list npfloat) : nat :=
  length
    (filter (fun z => exceeds z zThreshold)
       (flatten3 G_nChannels G_nFragments
          (z_scores_fragments
             (significance_filter np_sqrt G_nChannels G_nFragments zThreshold
                pac_values_fragments surrogate_pac_values_fragments)))).

(** The observations [(frag, i, j)], in the order in which the loop nest
    visits them. *)
Definition observations (G_nChannels G_nFragments : nat) : list (nat * nat * nat) :=
  flat_map (fun frag =>
    flat_map (fun i => map (fun j => (frag, i, j)) (range G_nChannels)) (range G_nChannels))
    (range G_nFragments).

(** The downstream test of significance: the stored value is positive. *)
Definition stored_positive (significant : array3) (obs : nat * nat * nat) : bool :=
  let '(frag, i, j) := obs in fgt (significant i j frag) (Fin 0).

Definition destination (obs : nat * nat * nat) : nat :=
  let '(_, i, _) := obs in i.

(** The number of significant observations, and of those with destination [i]. *)
Definition n_significant (G_nChannels G_nFragments : nat) (significant : array3) : nat :=
  length (filter (stored_positive significant) (observations G_nChannels G_nFragments)).

Definition n_significant_to (G_nChannels G_nFragments : nat) (significant : array3) (i : nat)
  : nat :=
  length (filter (fun obs => stored_positive significant obs && (i =? destination obs))
                 (observations G_nChannels G_nFragments)).

(** The likelihood normalisation as the specification words it: each
    destination's row [i] divided by its sum over the sources [x], a row of
    sum zero left as zeros. *)
Definition row_normalized (G_nChannels : nat) (m : array2) : array2 :=
  fun i x =>
    let row_sum := np_sum (map (fun x' => m i x') (range G_nChannels)) in
    if fneb row_sum (Fin 0) then fdiv (m i x) row_sum else Fin 0.

(** The pooled population as the specification words it: the zero entries
    discarded, the absolute value of every other entry (scaled as the
    notebook scales it). *)
Definition population_as_specified (G_nChannels G_nFragments : nat) (significant : array3)
  : list npfloat :=
  map (fun v => fabs (fmul v (Fin 100000)))
      (filter (fun v => fneb v (Fin 0)) (flatten3 G_nChannels G_nFragments significant)).

(** The mean over the fragments of the per-fragment posterior of [(i, x)]:
    what the reported matrix is not. *)
Definition mean_of_posteriors (G_nChannels G_nFragments : nat) (kde : npfloat -> npfloat)
           (significant : array3) (i x : nat) : npfloat :=
  np_mean (map (fun frag => P_i_given_x_fragments G_nChannels G_nFragments kde significant i x frag)
               (range G_nFragments)).

(** The value that the normalisation loop writes at [(i, j, frag)]: the raw
    likelihood over the sum of its column [j], or zero where that sum is zero. *)
Definition column_normalized (G_nChannels G_nFragments : nat) (kde : npfloat -> npfloat)
           (significant : array3) (i j frag : nat) : npfloat :=
  let raw := P_x_given_i_raw G_nChannels G_nFragments kde significant in
  let column_sum := np_sum (map (fun i' => raw i' j frag) (range G_nChannels)) in
  if fneb column_sum (Fin 0) then fdiv (raw i j frag) column_sum else Fin 0.

(** The value that the posterior loop writes at [(i, x, frag)]: Bayes'
    quotient, or zero where the evidence of [x] is zero. *)
Definition bayes_quotient (G_nChannels G_nFragments : nat) (kde : npfloat -> npfloat)
           (significant : array3) (i x frag : nat) : npfloat :=
  let evidence := P_x G_nChannels G_nFragments kde significant x frag in
  if fneb evidence (Fin 0)
  then fdiv (fmul (P_x_given_i G_nChannels G_nFragments kde significant i x frag)
                  (P_i G_nChannels G_nFragments significant i))
            evidence
  else Fin 0.

(** Two arrays of stored values that the downstream test [> 0] cannot tell
    apart: positive at the same indices, and equal there. *)
Definition same_positive_part (s s' : array3) : Prop :=
  forall i j frag,
    fgt (s i j frag) (Fin 0) = fgt (s' i j frag) (Fin 0) /\
    (fgt (s i j frag) (Fin 0) = true -> s i j frag = s' i j frag).

(** ** The displayed threshold *)

(** [x >= y] *)
Definition fge (x y : npfloat) : bool := fle y x.

(** [np.where(m >= tau, m, 0)] *)
Definition np_where_ge (tau : npfloat) (m : array2) : array2 :=
  fun i j => if fge (m i j) tau then m i j else Fin 0.

(** [P_i_given_x_thresholded = np.where(P_i_given_x_mean >= 0.1, P_i_given_x_mean, 0)].
    The entries compared are quotients [k / F] of small integers, for which
    the comparison with the double [0.1] is the comparison with 1/10. *)
Definition P_i_given_x_thresholded (G_nChannels G_nFragments : nat)
           (kde : npfloat -> npfloat) (significant : array3) : array2 :=
  np_where_ge (Fin (1 # 10)) (P_i_given_x_mean G_nChannels G_nFragments kde significant).

(** ** More vocabulary *)

(** A finite float in [[0, 1]]. *)
Definition unit_interval (x : npfloat) : Prop :=
  exists q, x = Fin q /\ (0 <= q <= 1)%Q.

(** The density is finite and positive wherever the likelihood cell
    evaluates it: at the scaled stored values that are positive. *)
Definition density_positive_where_evaluated (G_nChannels G_nFragments : nat)
           (kde : npfloat -> npfloat) (significant : array3) : Prop :=
  forall i j frag, i < G_nChannels -> j < G_nChannels -> frag < G_nFragments ->
    fgt (significant i j frag) (Fin 0) = true ->
    exists q, kde (fmul (significant i j frag) (Fin 100000)) = Fin q /\ (0 < q)%Q.

(** The number of fragments in which the stored value of [(i, x)] is
    positive. *)
Definition n_fragments_significant (G_nFragments : nat) (significant : array3) (i x : nat)
  : nat :=
  length (filter (fun frag => fgt (significant i x frag) (Fin 0)) (range G_nFragments)).

(** The density is finite and not negative wherever the likelihood cell
    evaluates it. *)
Definition density_nonneg_where_evaluated (G_nChannels G_nFragments : nat)
           (kde : npfloat -> npfloat) (significant : array3) : Prop :=
  forall i j frag, i < G_nChannels -> j < G_nChannels -> frag < G_nFragments ->
    fgt (significant i j frag) (Fin 0) = true ->
    finite_nonneg (kde (fmul (significant i j frag) (Fin 100000))).

(** [x_fragments[c, k, t]], where the indices are inside the array. *)
Definition sample_of {A : Type} (x_fragments : list (list (list A))) (c k t : nat)
  : option A :=
  match nth_error x_fragments c with
  | Some pieces =>
      match nth_error pieces k with
      | Some piece => nth_error piece t
      | None => None
      end
  | None => None
  end.

(** ** The range in which doubles follow the model *)

(** The model computes with exact rationals.  Between these bounds the sums
    of the likelihood cell do not overflow in doubles, and its quotients and
    the products of the posterior cell do not underflow to zero. *)
Definition density_floor : Q := Qmake 1 (10 ^ 100).

Definition density_ceiling : Q := inject_Z (10 ^ 100).

(** A stored strength below this bound is scaled by 1e5 without overflow. *)
Definition strength_ceiling : Q := inject_Z (10 ^ 300).

(** A finite float in [[0, density_ceiling]]. *)
Definition moderate (x : npfloat) : Prop :=
  exists q, x = Fin q /\ (0 <= q <= density_ceiling)%Q.

(** Every positive stored value is finite and below [strength_ceiling], and
    the density is finite and within [[density_floor, density_ceiling]]
    wherever the likelihood cell evaluates it. *)
Definition density_moderate_where_evaluated (G_nChannels G_nFragments : nat)
           (kde : npfloat -> npfloat) (significant : array3) : Prop :=
  forall i j frag, i < G_nChannels -> j < G_nChannels -> frag < G_nFragments ->
    fgt (significant i j frag) (Fin 0) = true ->
    (exists s, significant i j frag = Fin s /\ (s <= strength_ceiling)%Q) /\
    (exists q, kde (fmul (significant i j frag) (Fin 100000)) = Fin q /\
               (density_floor <= q <= density_ceiling)%Q).

(** Surrogates that are copies of one whole number, few enough for their
    sum to be exact in doubles: NumPy's mean of such a list is that number
    and its standard deviation is zero, as they are in exact arithmetic. *)
Definition whole_constant (xs : list npfloat) : Prop :=
  exists (c : Z) (copies : nat),
    0 < copies /\ (Z.abs c * Z.of_nat copies < 2 ^ 53)%Z /\
    xs = repeat (Fin (inject_Z c)) copies.

(** ** Concrete inputs, used by the examples below *)

Module Examples.

Local Open Scope Q_scope.

(** One channel of five samples, and one of four. *)
Definition five_samples : list (list nat) := [[1; 2; 3; 4; 5]]%nat.
Definition four_samples : list (list nat) := [[1; 2; 3; 4]]%nat.

(** An array given by its nested list [a[i][j][frag]], zero elsewhere. *)
Definition array3_of (l : list (list (list Q))) : array3 :=
  fun i j frag => Fin (nth frag (nth j (nth i l []) []) 0).

(** A square root that is exact on the squares of rationals. *)
Definition sqrt_exact (x : npfloat) : npfloat :=
  match x with
  | Fin q =>
      if Qle_bool 0 q
      then Fin (Z.sqrt (Qnum (Qred q)) # Pos.sqrt (Qden (Qred q)))
      else NaN
  | PInf => PInf
  | NInf | NaN => NaN
  end.

(** A stand-in for [norm.ppf]: its value at 0.975, to two decimals. *)
Definition ppf_table (p : npfloat) : npfloat :=
  match p with
  | Fin q => if Qeq_bool q (975 # 1000) then Fin (196 # 100) else NaN
  | _ => NaN
  end.

(** A stand-in for a fitted density: [1 / (1 + |v|)]. *)
Definition toy_density (v : npfloat) : npfloat :=
  match v with
  | Fin q => Fin (1 / (1 + Qabs q))
  | _ => Fin 0
  end.

Definition toy_fit (dataset : list npfloat) : result (npfloat -> npfloat) :=
  Ok toy_density.

(** Two channels, two fragments.  Strengths in units of 1e-5: in fragment 0
    [[5, 7], [2, 5]], in fragment 1 [[5, 2], [-3, 2]]; every observation has
    the surrogates [1e-5, 3e-5], of mean 2e-5 and standard deviation 1e-5,
    so [z = strength / 1e-5 - 2]. *)
Definition strengths : array3 :=
  array3_of [[[5 # 100000; 5 # 100000]; [7 # 100000; 2 # 100000]];
             [[2 # 100000; -3 # 100000]; [5 # 100000; 2 # 100000]]].

Definition surrogates : nat -> nat -> nat -> list npfloat :=
  fun _ _ _ => [Fin (1 # 100000); Fin (3 # 100000)].

(** Stored values in units of 1e-5: in fragment 0 [[1, 3], [0, 1]], in
    fragment 1 [[1, 0], [0, 0]]. *)
Definition stored : array3 :=
  array3_of [[[1 # 100000; 1 # 100000]; [3 # 100000; 0]];
             [[0; 0]; [1 # 100000; 0]]].

(** One channel, one fragment, one stored value, negative. *)
Definition stored_negative : array3 := array3_of [[[-2 # 100000]]].

(** The float in lowest terms, to compare computed values. *)
Definition lowest_terms (x : npfloat) : npfloat :=
  match x with
  | Fin q => Fin (Qred q)
  | _ => x
  end.

(** The entries of a matrix of shape [(n, n)], row by row, in lowest terms. *)
Definition entries (n : nat) (m : array2) : list (list npfloat) :=
  map (fun i => map (fun j => lowest_terms (m i j)) (range n)) (range n).

End Examples.

Module MoreExamples.

Local Open Scope Q_scope.

(** Surrogates that are all equal, as a stub oracle returns them. *)
Definition constant_surrogates : nat -> nat -> nat -> list npfloat :=
  fun _ _ _ => [Fin 1; Fin 1; Fin 1].

(** Every strength is 5. *)
Definition constant_strengths : array3 := fun _ _ _ => Fin 5.

(** Two channels of six samples. *)
Definition six_samples : list (list nat) :=
  [[10; 11; 12; 13; 14; 15]; [20; 21; 22; 23; 24; 25]]%nat.

End MoreExamples.

(** * Facts *)

(** ** Floats *)

Section NpFloatFacts.

Local Open Scope Q_scope.

Lemma Qltb_true (a b : Q) : Qltb a b = true <-> a < b.
Proof.
  unfold Qltb. rewrite negb_true_iff.
  split; intro H.
  - apply Qnot_le_lt. intro Hle. apply Qle_bool_iff in Hle. congruence.
  - destruct (Qle_bool b a) eqn:E; [|reflexivity].
    apply Qle_bool_iff in E. exfalso. apply (Qlt_not_le _ _ H E).
Qed.

Lemma Qltb_false (a b : Q) : Qltb a b = false <-> b <= a.
Proof.
  unfold Qltb. rewrite negb_false_iff. apply Qle_bool_iff.
Qed.

Lemma Qeq_bool_false (a b : Q) : Qeq_bool a b = false <-> ~ a == b.
Proof.
  split; intro H.
  - intro E. apply Qeq_bool_iff in E. congruence.
  - destruct (Qeq_bool a b) eqn:E; [|reflexivity].
    apply Qeq_bool_iff in E. contradiction.
Qed.

Lemma feq_refl (x : npfloat) : x ~= x.
Proof. destruct x; simpl; auto. reflexivity. Qed.

Lemma feq_sym (x y : npfloat) : x ~= y -> y ~= x.
Proof. destruct x, y; simpl; auto. intro H; symmetry; exact H. Qed.

Lemma feq_trans (x y z : npfloat) : x ~= y -> y ~= z -> x ~= z.
Proof.
  destruct x, y, z; simpl; auto; try contradiction.
  intros H1 H2. rewrite H1. exact H2.
Qed.

Lemma feq_of_eq (x y : npfloat) : x = y -> x ~= y.
Proof. intros ->. apply feq_refl. Qed.

(** [x > 0] holds of the positive rationals and of [+inf] only. *)
Lemma fgt_zero_true (x : npfloat) :
  fgt x (Fin 0) = true <-> (exists q, x = Fin q /\ 0 < q) \/ x = PInf.
Proof.
  destruct x; simpl; split; intro H.
  - left. exists q. split; [reflexivity|]. apply Qltb_true; exact H.
  - destruct H as [(q' & E & Hq)|E]; [|discriminate].
    injection E as <-. apply Qltb_true; exact Hq.
  - right; reflexivity.
  - reflexivity.
  - discriminate.
  - destruct H as [(q' & E & _)|E]; discriminate.
  - discriminate.
  - destruct H as [(q' & E & _)|E]; discriminate.
Qed.

(** A sum that is finite has only finite terms, and is their exact sum. *)
Lemma fold_fadd_not_finite (l : list npfloat) (x : npfloat) :
  is_finite x = false -> is_finite (fold_left fadd l x) = false.
Proof.
  revert x. induction l as [|y l IH]; intros x Hx; simpl; [exact Hx|].
  apply IH. destruct x, y; simpl in *; congruence.
Qed.

Lemma fold_fadd_finite (l : list npfloat) (a q : Q) :
  fold_left fadd l (Fin a) = Fin q ->
  exists qs, l = map Fin qs /\ q = fold_left Qplus qs a.
Proof.
  revert a. induction l as [|y l IH]; intros a H; simpl in H.
  - exists []. injection H as <-. split; reflexivity.
  - destruct y as [b| | |].
    + simpl in H. destruct (IH _ H) as (qs & -> & ->).
      exists (b :: qs). split; reflexivity.
    + pose proof (fold_fadd_not_finite l PInf eq_refl) as Hn.
      simpl in H. rewrite H in Hn. discriminate.
    + pose proof (fold_fadd_not_finite l NInf eq_refl) as Hn.
      simpl in H. rewrite H in Hn. discriminate.
    + pose proof (fold_fadd_not_finite l NaN eq_refl) as Hn.
      simpl in H. rewrite H in Hn. discriminate.
Qed.

Lemma fold_fadd_map_Fin (qs : list Q) (a : Q) :
  fold_left fadd (map Fin qs) (Fin a) = Fin (fold_left Qplus qs a).
Proof.
  revert a. induction qs as [|b qs IH]; intro a; simpl; [reflexivity|].
  apply IH.
Qed.

Lemma fold_Qplus_shift (qs : list Q) (a : Q) :
  fold_left Qplus qs a == a + fold_left Qplus qs 0.
Proof.
  revert a. induction qs as [|b qs IH]; intro a; simpl.
  - ring.
  - rewrite IH. rewrite (IH (0 + b)). ring.
Qed.

(** Dividing every term of a sum by a non-zero [c] divides the sum. *)
Lemma fold_Qplus_div (qs : list Q) (c : Q) :
  ~ c == 0 ->
  fold_left Qplus (map (fun q => q / c) qs) 0 == fold_left Qplus qs 0 / c.
Proof.
  intro Hc. induction qs as [|b qs IH]; simpl.
  - field. exact Hc.
  - rewrite fold_Qplus_shift. rewrite IH.
    rewrite (fold_Qplus_shift qs (0 + b)). field. exact Hc.
Qed.

Lemma fold_Qplus_nonneg (qs : list Q) :
  (forall q, In q qs -> 0 <= q) -> 0 <= fold_left Qplus qs 0.
Proof.
  induction qs as [|b qs IH]; intro H; simpl.
  - apply Qle_refl.
  - rewrite fold_Qplus_shift.
    assert (0 <= b) by (apply H; left; reflexivity).
    assert (0 <= fold_left Qplus qs 0) by (apply IH; intros; apply H; right; assumption).
    lra.
Qed.

Lemma fold_Qplus_ext (A : Type) (f g : A -> Q) (l : list A) :
  (forall x, In x l -> f x == g x) ->
  fold_left Qplus (map f l) 0 == fold_left Qplus (map g l) 0.
Proof.
  induction l as [|x l IH]; intro H; simpl.
  - reflexivity.
  - rewrite fold_Qplus_shift. rewrite (fold_Qplus_shift (map g l)).
    rewrite IH by (intros; apply H; right; assumption).
    rewrite (H x) by (left; reflexivity). reflexivity.
Qed.

Lemma inject_nat_eq_zero (n : nat) :
  Qeq_bool (inject_Z (Z.of_nat n)) 0 = true <-> n = 0%nat.
Proof.
  rewrite Qeq_bool_iff. unfold Qeq. simpl. lia.
Qed.

End NpFloatFacts.

(** ** Loops *)

(** Settles the bound tests [a <? b] that the context decides. *)
Ltac ltb_decide :=
  repeat match goal with
         | |- context [?a <? ?b] =>
             first [ replace (a <? b) with true by (symmetry; apply Nat.ltb_lt; lia)
                   | replace (a <? b) with false by (symmetry; apply Nat.ltb_ge; lia) ]
         end.

Section LoopFacts.

Lemma for_range_S (S : Type) (n : nat) (body : nat -> S -> S) (s : S) :
  for_range (Datatypes.S n) body s = body n (for_range n body s).
Proof.
  unfold for_range, range. rewrite seq_S, fold_left_app. reflexivity.
Qed.

(** The invariant rule of a [for] loop. *)
Lemma for_range_ind (S : Type) (P : nat -> S -> Prop) (n : nat)
      (body : nat -> S -> S) (s : S) :
  P 0 s ->
  (forall k s', k < n -> P k s' -> P (Datatypes.S k) (body k s')) ->
  P n (for_range n body s).
Proof.
  intros H0 Hstep. induction n as [|n IH].
  - exact H0.
  - rewrite for_range_S. apply Hstep; [lia|].
    apply IH. intros k s' Hk. apply Hstep. lia.
Qed.

(** What a loop does to one observed value, when each iteration acts on
    that value alone. *)
Lemma for_range_obs (S V : Type) (obs : S -> V) (h : nat -> V -> V) (n : nat)
      (body : nat -> S -> S) (s : S) :
  (forall k s', k < n -> obs (body k s') = h k (obs s')) ->
  obs (for_range n body s) = for_range n h (obs s).
Proof.
  intro H. induction n as [|n IH].
  - reflexivity.
  - rewrite !for_range_S. rewrite H by lia. f_equal.
    apply IH. intros k s' Hk. apply H. lia.
Qed.

Lemma for_range_ext (S : Type) (n : nat) (f g : nat -> S -> S) (s : S) :
  (forall k s', k < n -> f k s' = g k s') ->
  for_range n f s = for_range n g s.
Proof.
  intro H. induction n as [|n IH].
  - reflexivity.
  - rewrite !for_range_S. rewrite IH by (intros; apply H; lia).
    apply H. lia.
Qed.

Lemma for_range_id (S : Type) (n : nat) (s : S) :
  for_range n (fun _ s' => s') s = s.
Proof.
  induction n as [|n IH]; [reflexivity|]. rewrite for_range_S. exact IH.
Qed.

(** A loop that acts at one index only. *)
Lemma for_range_hit (V : Type) (n k0 : nat) (g : V -> V) (v : V) :
  for_range n (fun k v' => if k =? k0 then g v' else v') v
  = if k0 <? n then g v else v.
Proof.
  induction n as [|n IH].
  - reflexivity.
  - rewrite for_range_S, IH.
    destruct (Nat.eqb_spec n k0) as [->|Hne]; [ltb_decide; reflexivity|].
    destruct (Nat.ltb_spec k0 n) as [Hlt|Hge]; ltb_decide; reflexivity.
Qed.

Lemma loop3_obs (S V : Type) (obs : S -> V) (h : nat -> nat -> nat -> V -> V)
      (F n : nat) (body : nat -> nat -> nat -> S -> S) (s : S) :
  (forall frag i j s', frag < F -> i < n -> j < n ->
                       obs (body frag i j s') = h frag i j (obs s')) ->
  obs (loop3 F n body s) = loop3 F n h (obs s).
Proof.
  intro H. unfold loop3.
  apply for_range_obs. intros frag s1 Hf.
  apply for_range_obs. intros i s2 Hi.
  apply for_range_obs. intros j s3 Hj.
  apply H; assumption.
Qed.

Lemma loop3_ext (S : Type) (F n : nat) (f g : nat -> nat -> nat -> S -> S) (s : S) :
  (forall frag i j s', frag < F -> i < n -> j < n -> f frag i j s' = g frag i j s') ->
  loop3 F n f s = loop3 F n g s.
Proof.
  intro H. unfold loop3.
  apply for_range_ext. intros frag s1 Hf.
  apply for_range_ext. intros i s2 Hi.
  apply for_range_ext. intros j s3 Hj.
  apply H; assumption.
Qed.

(** A loop nest that acts at one index triple only. *)
Lemma loop3_hit (V : Type) (F n i0 j0 f0 : nat) (g : V -> V) (v : V) :
  loop3 F n (fun frag i j v' =>
               if (i0 =? i) && (j0 =? j) && (f0 =? frag) then g v' else v') v
  = if (i0 <? n) && (j0 <? n) && (f0 <? F) then g v else v.
Proof.
  unfold loop3.
  transitivity (for_range F (fun frag v' =>
                  if frag =? f0
                  then (if (i0 <? n) && (j0 <? n) then g v' else v')
                  else v') v).
  - apply for_range_ext. intros frag v1 _.
    transitivity (for_range n (fun i v' =>
                    if i =? i0
                    then (if (j0 <? n) && (f0 =? frag) then g v' else v')
                    else v') v1).
    + apply for_range_ext. intros i v2 _.
      rewrite (Nat.eqb_sym i0 i).
      destruct (i =? i0); simpl.
      * transitivity (for_range n (fun j v' =>
                        if j =? j0 then (if f0 =? frag then g v' else v') else v') v2).
        -- apply for_range_ext. intros j v3 _.
           rewrite (Nat.eqb_sym j0 j). destruct (j =? j0); reflexivity.
        -- rewrite for_range_hit. destruct (j0 <? n); reflexivity.
      * apply for_range_id.
    + rewrite for_range_hit. rewrite (Nat.eqb_sym frag f0).
      destruct (i0 <? n), (j0 <? n), (f0 =? frag); reflexivity.
  - rewrite for_range_hit.
    destruct (i0 <? n), (j0 <? n), (f0 <? F); reflexivity.
Qed.

(** The index triples of the loop nest, in the order it visits them. *)
Lemma fold_left_flat_map (A B S : Type) (f : S -> B -> S) (g : A -> list B)
      (l : list A) (s : S) :
  fold_left f (flat_map g l) s = fold_left (fun s' x => fold_left f (g x) s') l s.
Proof.
  revert s. induction l as [|x l IH]; intro s; simpl; [reflexivity|].
  rewrite fold_left_app. apply IH.
Qed.

End LoopFacts.

(** ** Segmentation *)

Section SegmenterFacts.

Variable A : Type.

Lemma firstn_app_skipn (a b : nat) (l : list A) :
  firstn a l ++ firstn b (skipn a l) = firstn (a + b) l.
Proof.
  revert l. induction a as [|a IH]; intro l; simpl.
  - reflexivity.
  - destruct l as [|x l]; simpl.
    + rewrite firstn_nil. reflexivity.
    + f_equal. apply IH.
Qed.

Lemma py_slice_length (a b : nat) (l : list A) :
  a <= b -> b <= length l -> length (py_slice a b l) = b - a.
Proof.
  intros Hab Hb. unfold py_slice.
  rewrite length_firstn, length_skipn. lia.
Qed.

(** The pieces of one channel, put end to end. *)
Lemma pieces_concat (F L : nat) (channel : list A) :
  concat (map (fun i => py_slice (i * L) ((i + 1) * L) channel) (range F))
  = firstn (F * L) channel.
Proof.
  induction F as [|F IH].
  - reflexivity.
  - unfold range in *. rewrite seq_S, map_app, concat_app, IH. simpl.
    rewrite app_nil_r. unfold py_slice.
    replace ((F + 1) * L - F * L) with L by lia.
    rewrite firstn_app_skipn. f_equal. lia.
Qed.

Lemma fragments_of_fragmented (F L T : nat) (x : list (list A)) :
  F * L <= T ->
  (forall channel, In channel x -> length channel = T) ->
  fragmented F L x (fragments_of F L x).
Proof.
  intros HL Hx. split.
  - unfold fragments_of. apply length_map.
  - intros c channel Hc.
    exists (map (fun i => py_slice (i * L) ((i + 1) * L) channel) (range F)).
    split; [|split; [|split]].
    + unfold fragments_of. rewrite nth_error_map, Hc. reflexivity.
    + rewrite length_map. apply length_seq.
    + intros piece Hp. apply in_map_iff in Hp. destruct Hp as (i & <- & Hi).
      apply in_seq in Hi.
      rewrite py_slice_length.
      * lia.
      * lia.
      * rewrite (Hx channel) by (eapply nth_error_In; eassumption). nia.
    + apply pieces_concat.
Qed.

(** C3, as the notebook has it.  For any fragment count [F > 0] the
    segmentation cell succeeds, whether or not [F] divides the signal length
    [T]: the fragment length is [L = T / F] rounded down, every channel is
    cut into [F] consecutive, non-overlapping pieces of length [L] that cover
    its first [F * L = T - T mod F] samples in order, and the last [T mod F]
    samples are dropped.  When [F] divides [T], [F * L = T] and the pieces
    cover the whole channel. *)
Theorem Segmenter_truncates (F T : nat) (ip_theta ia_gamma : list (list A)) :
  0 < F ->
  (forall channel, In channel ip_theta -> length channel = T) ->
  (forall channel, In channel ia_gamma -> length channel = T) ->
  exists L ip_theta_fragments ia_gamma_fragments,
    Segmenter F T ip_theta ia_gamma = Ok (ip_theta_fragments, ia_gamma_fragments) /\
    L = T / F /\
    F * L = T - T mod F /\
    fragmented F L ip_theta ip_theta_fragments /\
    fragmented F L ia_gamma ia_gamma_fragments /\
    (T mod F = 0 ->
     F * L = T /\
     forall channel, In channel ip_theta \/ In channel ia_gamma ->
                     firstn (F * L) channel = channel).
Proof.
  intros HF Hp Ha.
  assert (HTF : F * (T / F) = T - T mod F).
  { pose proof (Nat.div_mod_eq T F). lia. }
  assert (Hle : F * (T / F) <= T) by lia.
  exists (T / F), (fragments_of F (T / F) ip_theta), (fragments_of F (T / F) ia_gamma).
  split; [|split; [|split; [|split; [|split]]]].
  - unfold Segmenter, L_fLength.
    destruct (Nat.eqb_spec F 0) as [E|_]; [lia|]. reflexivity.
  - reflexivity.
  - exact HTF.
  - apply fragments_of_fragmented with (T := T); assumption.
  - apply fragments_of_fragmented with (T := T); assumption.
  - intro Hmod. split; [lia|].
    intros channel Hin. apply firstn_all2.
    destruct Hin as [Hin|Hin]; [rewrite (Hp _ Hin) | rewrite (Ha _ Hin)]; lia.
Qed.

End SegmenterFacts.

Lemma Segmenter_truncates_witness :
  exists L ip_theta_fragments ia_gamma_fragments,
    Segmenter 2 4 Examples.four_samples Examples.four_samples
    = Ok (ip_theta_fragments, ia_gamma_fragments) /\
    L = 4 / 2 /\
    2 * L = 4 - 4 mod 2 /\
    fragmented 2 L Examples.four_samples ip_theta_fragments /\
    fragmented 2 L Examples.four_samples ia_gamma_fragments /\
    (4 mod 2 = 0 ->
     2 * L = 4 /\
     forall channel, In channel Examples.four_samples \/ In channel Examples.four_samples ->
                     firstn (2 * L) channel = channel).
Proof.
  apply (@Segmenter_truncates nat 2 4 Examples.four_samples Examples.four_samples).
  - lia.
  - intros channel [<-|[]]. reflexivity.
  - intros channel [<-|[]]. reflexivity.
Defined.

(** C3, as the specification states it, fails: five samples cut into two
    fragments raise nothing; the cell returns two fragments of two samples
    and the fifth sample is lost. *)
Lemma Segmenter_no_error_counterexample :
  5 mod 2 <> 0 /\
  Segmenter 2 5 Examples.five_samples Examples.five_samples
  = Ok ([[[1; 2]; [3; 4]]], [[[1; 2]; [3; 4]]]) /\
  ~ (exists e, Segmenter 2 5 Examples.five_samples Examples.five_samples = Raise e).
Proof.
  split; [|split].
  - simpl. discriminate.
  - reflexivity.
  - intros (e & He). vm_compute in He. discriminate.
Qed.

(** ** Arrays *)

Section ArrayFacts.

Lemma set3_same (a : array3) (i j k : nat) (v : npfloat) : set3 a i j k v i j k = v.
Proof. unfold set3. rewrite !Nat.eqb_refl. reflexivity. Qed.

Lemma in_range_iff (n k : nat) : In k (range n) <-> k < n.
Proof. unfold range. rewrite in_seq. lia. Qed.

Lemma in_range_ltb (n i j F f : nat) :
  i < n -> j < n -> f < F -> (i <? n) && (j <? n) && (f <? F) = true.
Proof.
  intros Hi Hj Hf.
  apply Nat.ltb_lt in Hi. apply Nat.ltb_lt in Hj. apply Nat.ltb_lt in Hf.
  rewrite Hi, Hj, Hf. reflexivity.
Qed.

Lemma flat_map_ext_in (A B : Type) (f g : A -> list B) (l : list A) :
  (forall x, In x l -> f x = g x) -> flat_map f l = flat_map g l.
Proof.
  induction l as [|x l IH]; intro H; simpl; [reflexivity|].
  rewrite (H x) by (left; reflexivity).
  rewrite IH by (intros; apply H; right; assumption). reflexivity.
Qed.

(** Two arrays that agree inside the shape flatten to the same list. *)
Lemma flatten3_ext (n F : nat) (a b : array3) :
  (forall i j f, i < n -> j < n -> f < F -> a i j f = b i j f) ->
  flatten3 n F a = flatten3 n F b.
Proof.
  intro H. unfold flatten3.
  apply flat_map_ext_in. intros i Hi. apply in_range_iff in Hi.
  apply flat_map_ext_in. intros j Hj. apply in_range_iff in Hj.
  apply map_ext_in. intros f Hf. apply in_range_iff in Hf.
  apply H; assumption.
Qed.

Lemma in_flatten3 (n F : nat) (a : array3) (v : npfloat) :
  In v (flatten3 n F a) <-> exists i j f, i < n /\ j < n /\ f < F /\ a i j f = v.
Proof.
  unfold flatten3. rewrite in_flat_map. split.
  - intros (i & Hi & H). apply in_flat_map in H. destruct H as (j & Hj & H).
    apply in_map_iff in H. destruct H as (f & E & Hf).
    exists i, j, f. rewrite <- !in_range_iff. auto.
  - intros (i & j & f & Hi & Hj & Hf & E).
    exists i. split; [apply in_range_iff; exact Hi|].
    apply in_flat_map. exists j. split; [apply in_range_iff; exact Hj|].
    apply in_map_iff. exists f. split; [exact E|apply in_range_iff; exact Hf].
Qed.

Lemma filter_length_mono (A : Type) (p q : A -> bool) (l : list A) :
  (forall x, In x l -> p x = true -> q x = true) ->
  length (filter p l) <= length (filter q l).
Proof.
  induction l as [|x l IH]; intro H; simpl; [lia|].
  assert (IH' : length (filter p l) <= length (filter q l))
    by (apply IH; intros; apply H; [right|]; assumption).
  destruct (p x) eqn:Ep.
  - rewrite (H x (or_introl eq_refl) Ep). simpl. lia.
  - destruct (q x); simpl; lia.
Qed.

End ArrayFacts.

(** ** The significance filter *)

Section SignificanceFacts.

Variable np_sqrt : npfloat -> npfloat.
Variable norm_ppf : npfloat -> npfloat.
Variables G_nChannels G_nFragments : nat.
Variable G_Alpha : Q.
Variable pac_values_fragments : array3.
Variable surrogate_pac_values_fragments : nat -> nat -> nat -> list npfloat.

Local Abbreviation filtered zThreshold :=
  (significance_filter np_sqrt G_nChannels G_nFragments zThreshold
     pac_values_fragments surrogate_pac_values_fragments).

Local Abbreviation z_of i j frag :=
  (z_score np_sqrt (pac_values_fragments i%nat j%nat frag%nat)
     (surrogate_pac_values_fragments i%nat j%nat frag%nat)).

(** The z-score array after the loop: the z-score inside the shape, the
    initial zero outside. *)
Lemma z_scores_fragments_at (zThreshold : npfloat) (i j frag : nat) :
  z_scores_fragments (filtered zThreshold) i j frag
  = if (i <? G_nChannels) && (j <? G_nChannels) && (frag <? G_nFragments)
    then z_of i j frag else Fin 0.
Proof.
  unfold significance_filter.
  rewrite (loop3_obs (fun st => z_scores_fragments st i j frag)
             (fun frag' i' j' v =>
                if (i =? i') && (j =? j') && (frag =? frag')
                then (fun _ => z_of i j frag) v else v)).
  - rewrite loop3_hit. reflexivity.
  - intros frag' i' j' st _ _ _. simpl. unfold set3.
    destruct (Nat.eqb_spec i i') as [<-|]; [|reflexivity].
    destruct (Nat.eqb_spec j j') as [<-|]; [|reflexivity].
    destruct (Nat.eqb_spec frag frag') as [<-|]; reflexivity.
Qed.

(** The array of significant values after the loop. *)
Lemma significant_pac_values_fragments_at (zThreshold : npfloat) (i j frag : nat) :
  significant_pac_values_fragments (filtered zThreshold) i j frag
  = if (i <? G_nChannels) && (j <? G_nChannels) && (frag <? G_nFragments)
    then (if exceeds (z_of i j frag) zThreshold
          then pac_values_fragments i j frag else Fin 0)
    else Fin 0.
Proof.
  unfold significance_filter.
  rewrite (loop3_obs (fun st => significant_pac_values_fragments st i j frag)
             (fun frag' i' j' v =>
                if (i =? i') && (j =? j') && (frag =? frag')
                then (fun v' => if exceeds (z_of i j frag) zThreshold
                                then pac_values_fragments i j frag else v') v
                else v)).
  - rewrite loop3_hit. reflexivity.
  - intros frag' i' j' st _ _ _. simpl. rewrite set3_same.
    destruct (Nat.eqb_spec i i') as [<-|Hi].
    + destruct (Nat.eqb_spec j j') as [<-|Hj].
      * destruct (Nat.eqb_spec frag frag') as [<-|Hf]; simpl.
        -- destruct (exceeds _ zThreshold); [apply set3_same|reflexivity].
        -- destruct (exceeds _ zThreshold); [|reflexivity].
           unfold set3. rewrite !Nat.eqb_refl.
           destruct (Nat.eqb_spec frag frag'); [contradiction|reflexivity].
      * simpl. destruct (exceeds _ zThreshold); [|reflexivity].
        unfold set3. rewrite Nat.eqb_refl.
        destruct (Nat.eqb_spec j j'); [contradiction|reflexivity].
    + simpl. destruct (exceeds _ zThreshold); [|reflexivity].
      unfold set3. destruct (Nat.eqb_spec i i'); [contradiction|reflexivity].
Qed.

(** C4.  With [F > 0] fragments the run derives one threshold,
    [norm.ppf(1 - alpha/F)]; and with it, for every observation
    [(i, j, frag)], the filter stores the z-score
    [(strength - mean(surrogates)) / std(surrogates)], or [0] when the
    surrogate standard deviation is zero, and keeps the strength exactly when
    [|z|] exceeds the threshold, recording zero otherwise. *)
Theorem significance_decision (i j frag : nat) :
  0 < G_nFragments ->
  i < G_nChannels -> j < G_nChannels -> frag < G_nFragments ->
  exists zThreshold,
    G_zThreshold_Bonferroni norm_ppf G_nFragments G_Alpha = Ok zThreshold /\
    zThreshold = norm_ppf (Fin (1 - G_Alpha / inject_Z (Z.of_nat G_nFragments))%Q) /\
    let strength := pac_values_fragments i j frag in
    let surrogates := surrogate_pac_values_fragments i j frag in
    let z := z_scores_fragments (filtered zThreshold) i j frag in
    z = (if feqb (np_std np_sqrt surrogates) (Fin 0) then Fin 0
         else fdiv (fsub strength (np_mean surrogates)) (np_std np_sqrt surrogates)) /\
    significant_pac_values_fragments (filtered zThreshold) i j frag
    = (if fgt (fabs z) zThreshold then strength else Fin 0).
Proof.
  intros HF Hi Hj Hf.
  exists (norm_ppf (Fin (1 - G_Alpha / inject_Z (Z.of_nat G_nFragments))%Q)).
  split; [|split; [reflexivity|]].
  - unfold G_zThreshold_Bonferroni, L_alpha_Bonferroni.
    destruct (Nat.eqb_spec G_nFragments 0) as [E|_]; [lia|]. reflexivity.
  - intros strength surrogates z.
    assert (Hz : z = z_of i j frag).
    { unfold z. rewrite z_scores_fragments_at, in_range_ltb by assumption. reflexivity. }
    split.
    + rewrite Hz. reflexivity.
    + rewrite significant_pac_values_fragments_at, in_range_ltb by assumption.
      rewrite Hz. reflexivity.
Qed.

(** Raising the threshold keeps the test from passing. *)
Lemma exceeds_mono (z t1 t2 : npfloat) :
  fle t1 t2 = true -> exceeds z t2 = true -> exceeds z t1 = true.
Proof.
  unfold exceeds. destruct (fabs z) as [a| | |], t1 as [b| | |], t2 as [c| | |];
    simpl; try congruence.
  intros Hbc Hca. apply Qle_bool_iff in Hbc. apply Qltb_true in Hca.
  apply Qltb_true. eapply Qle_lt_trans; eassumption.
Qed.

(** C9.  For fixed strengths and surrogates and thresholds [t1 <= t2], every
    observation that the filter declares significant at [t2] it declares
    significant at [t1], and keeps with the same stored value; so the count
    of significant observations at [t2] is at most the count at [t1]. *)
Theorem significant_count_antitone (t1 t2 : npfloat) :
  fle t1 t2 = true ->
  (forall i j frag, i < G_nChannels -> j < G_nChannels -> frag < G_nFragments ->
     exceeds (z_scores_fragments (filtered t2) i j frag) t2 = true ->
     exceeds (z_scores_fragments (filtered t1) i j frag) t1 = true /\
     significant_pac_values_fragments (filtered t1) i j frag
     = significant_pac_values_fragments (filtered t2) i j frag) /\
  count_significant np_sqrt G_nChannels G_nFragments t2
    pac_values_fragments surrogate_pac_values_fragments
  <= count_significant np_sqrt G_nChannels G_nFragments t1
       pac_values_fragments surrogate_pac_values_fragments.
Proof.
  intro Hle. split.
  - intros i j frag Hi Hj Hf H2.
    rewrite z_scores_fragments_at, in_range_ltb in H2 by assumption.
    pose proof (exceeds_mono _ _ _ Hle H2) as H1.
    rewrite z_scores_fragments_at, !significant_pac_values_fragments_at.
    rewrite in_range_ltb by assumption.
    rewrite H1, H2. split; reflexivity.
  - unfold count_significant.
    rewrite (@flatten3_ext G_nChannels G_nFragments
               (z_scores_fragments (filtered t2)) (z_scores_fragments (filtered t1))).
    + apply filter_length_mono. intros z _. apply exceeds_mono. exact Hle.
    + intros i j f _ _ _. rewrite !z_scores_fragments_at. reflexivity.
Qed.

End SignificanceFacts.

(** ** The likelihood *)

Section LikelihoodFacts.

Variables G_nChannels G_nFragments : nat.
Variable kde : npfloat -> npfloat.
Variable significant : array3.

Local Abbreviation raw := (P_x_given_i_raw G_nChannels G_nFragments kde significant).
Local Abbreviation lik := (P_x_given_i G_nChannels G_nFragments kde significant).
Local Abbreviation column_normalized_at :=
  (column_normalized G_nChannels G_nFragments kde significant).

(** The likelihood before normalisation: the density at the scaled value
    where the stored value is positive, zero elsewhere. *)
Lemma P_x_given_i_raw_at (i j frag : nat) :
  raw i j frag
  = if (i <? G_nChannels) && (j <? G_nChannels) && (frag <? G_nFragments)
    then (if fgt (significant i j frag) (Fin 0)
          then kde (fmul (significant i j frag) (Fin 100000)) else Fin 0)
    else Fin 0.
Proof.
  unfold P_x_given_i_raw.
  rewrite (loop3_obs (fun P : array3 => P i j frag)
             (fun frag' i' j' v =>
                if (i =? i') && (j =? j') && (frag =? frag')
                then (fun _ => if fgt (significant i j frag) (Fin 0)
                               then kde (fmul (significant i j frag) (Fin 100000))
                               else Fin 0) v
                else v)).
  - rewrite loop3_hit. reflexivity.
  - intros frag' i' j' P _ _ _. unfold likelihood_body.
    destruct (fgt (significant i' j' frag') (Fin 0)) eqn:Epos; unfold set3;
      destruct (Nat.eqb_spec i i') as [<-|]; try reflexivity;
      destruct (Nat.eqb_spec j j') as [<-|]; try reflexivity;
      destruct (Nat.eqb_spec frag frag') as [<-|]; try reflexivity;
      simpl; rewrite Epos; reflexivity.
Qed.


(** The state of the normalisation loop after [k] fragments. *)
Lemma normalize_loop_invariant (k : nat) :
  let st := for_range k (normalize_body G_nChannels) (raw, np_zeros2) in
  (forall i j frag,
      fst st i j frag = if frag <? k then column_normalized_at i j frag else raw i j frag) /\
  (forall i j,
      snd st i j
      = for_range k (fun frag v =>
                       fadd v (of_nat (if fgt (column_normalized_at i j frag) (Fin 0)
                                       then 1 else 0)))
                  (Fin 0)).
Proof.
  induction k as [|k [IHP IHc]].
  - split; reflexivity.
  - cbv zeta in *. rewrite for_range_S.
    destruct (for_range k (normalize_body G_nChannels) (raw, np_zeros2)) as [P c].
    simpl in IHP, IHc.
    assert (Hnew : forall i j,
               np_divide_where_nonzero (frag_of P k) (np_sum_axis0 G_nChannels (frag_of P k)) i j
               = column_normalized_at i j k).
    { intros i j. unfold np_divide_where_nonzero, np_sum_axis0, frag_of, column_normalized.
      rewrite IHP, Nat.ltb_irrefl.
      replace (map (fun i' => P i' j k) (range G_nChannels))
        with (map (fun i' => raw i' j k) (range G_nChannels)).
      - reflexivity.
      - apply map_ext. intro i'. rewrite IHP, Nat.ltb_irrefl. reflexivity. }
    split.
    + intros i j frag. simpl. unfold set_frag.
      destruct (Nat.eqb_spec frag k) as [->|Hne].
      * ltb_decide. apply Hnew.
      * rewrite IHP. destruct (Nat.ltb_spec frag k) as [Hlt|Hge]; ltb_decide; reflexivity.
    + intros i j. simpl. rewrite for_range_S.
      unfold add2, positive_indicator, frag_of, set_frag.
      rewrite Nat.eqb_refl, Hnew, IHc. reflexivity.
Qed.

(** The normalised likelihood, at every index. *)
Lemma P_x_given_i_at (i j frag : nat) :
  lik i j frag
  = if frag <? G_nFragments then column_normalized_at i j frag else raw i j frag.
Proof.
  unfold P_x_given_i, normalize_loop.
  apply (proj1 (normalize_loop_invariant G_nFragments)).
Qed.

(** C1, as the notebook has it.  For every fragment the likelihood matrix is
    normalised by dividing each source's column (fixed source [x], varying
    destination [i]) by the sum of that column over the destination axis;
    a column whose sum is zero is left as all zeros rather than divided. *)
Theorem likelihood_normalized_by_column (i x frag : nat) :
  i < G_nChannels -> x < G_nChannels -> frag < G_nFragments ->
  let column_sum := np_sum (map (fun i' => raw i' x frag) (range G_nChannels)) in
  lik i x frag
  = (if fneb column_sum (Fin 0) then fdiv (raw i x frag) column_sum else Fin 0) /\
  (feqb column_sum (Fin 0) = true ->
   forall i', lik i' x frag = Fin 0).
Proof.
  intros Hi Hx Hf column_sum.
  apply Nat.ltb_lt in Hf.
  split.
  - rewrite P_x_given_i_at, Hf. reflexivity.
  - intros Hz i'. rewrite P_x_given_i_at, Hf.
    unfold column_normalized. fold column_sum.
    unfold fneb. rewrite Hz. reflexivity.
Qed.

End LikelihoodFacts.

(** ** Counting *)

Section CountingFacts.

Local Open Scope Q_scope.

Lemma inject_nat_plus (a b : nat) :
  inject_Z (Z.of_nat (a + b)) == inject_Z (Z.of_nat a) + inject_Z (Z.of_nat b).
Proof. rewrite Nat2Z.inj_add, inject_Z_plus. reflexivity. Qed.

Lemma inject_nat_nonneg (a : nat) : 0 <= inject_Z (Z.of_nat a).
Proof. unfold Qle. simpl. lia. Qed.

Lemma inject_nat_le (a b : nat) :
  (a <= b)%nat -> inject_Z (Z.of_nat a) <= inject_Z (Z.of_nat b).
Proof. intro H. rewrite <- Zle_Qle. lia. Qed.

Lemma inject_nat_pos (a : nat) : (0 < a)%nat -> 0 < inject_Z (Z.of_nat a).
Proof. intro H. unfold Qlt. simpl. lia. Qed.

Lemma fold_left_map (A B S : Type) (f : S -> B -> S) (g : A -> B) (l : list A) (s : S) :
  fold_left f (map g l) s = fold_left (fun s' x => f s' (g x)) l s.
Proof.
  revert s. induction l as [|x l IH]; intro s; simpl; [reflexivity|]. apply IH.
Qed.

Lemma fold_left_ext (A S : Type) (f g : S -> A -> S) (l : list A) (s : S) :
  (forall s' x, f s' x = g s' x) -> fold_left f l s = fold_left g l s.
Proof.
  intro H. revert s. induction l as [|x l IH]; intro s; simpl; [reflexivity|].
  rewrite H. apply IH.
Qed.

(** The loop nest is a fold over the observations. *)
Lemma loop3_as_fold (S : Type) (F n : nat) (body : nat -> nat -> nat -> S -> S) (s : S) :
  loop3 F n body s
  = fold_left (fun s' obs => let '(frag, i, j) := obs in body frag i j s')
              (observations n F) s.
Proof.
  unfold loop3, observations, for_range.
  rewrite fold_left_flat_map. apply fold_left_ext. intros s1 frag.
  rewrite fold_left_flat_map. apply fold_left_ext. intros s2 i.
  rewrite fold_left_map. reflexivity.
Qed.

Lemma in_observations (F n frag i j : nat) :
  In (frag, i, j) (observations n F) <-> (frag < F /\ i < n /\ j < n)%nat.
Proof.
  unfold observations. rewrite in_flat_map. split.
  - intros (frag' & Hf & H). apply in_flat_map in H. destruct H as (i' & Hi & H).
    apply in_map_iff in H. destruct H as (j' & E & Hj).
    injection E as -> -> ->. rewrite <- !in_range_iff. auto.
  - intros (Hf & Hi & Hj).
    exists frag. split; [apply in_range_iff; exact Hf|].
    apply in_flat_map. exists i. split; [apply in_range_iff; exact Hi|].
    apply in_map_iff. exists j. split; [reflexivity|apply in_range_iff; exact Hj].
Qed.

(** A counter incremented under a test counts the elements that pass it. *)
Lemma counting_fold (A : Type) (p : A -> bool) (l : list A) (a : Q) :
  exists q,
    fold_left (fun v x => if p x then fadd v (Fin 1) else v) l (Fin a) = Fin q /\
    q == a + inject_Z (Z.of_nat (length (filter p l))).
Proof.
  revert a. induction l as [|x l IH]; intro a; simpl.
  - exists a. split; [reflexivity|]. simpl. ring.
  - destruct (p x); simpl.
    + destruct (IH (a + 1)) as (q & E & Hq). exists q. split; [exact E|].
      rewrite Hq. rewrite (inject_nat_plus 1 (length (filter p l))). simpl. ring.
    + apply IH.
Qed.

(** The same for the counters of the two normalisation loops, which add an
    indicator at every fragment. *)
Lemma counting_loop (p : nat -> bool) (k : nat) :
  exists q,
    for_range k (fun frag v => fadd v (of_nat (if p frag then 1 else 0))) (Fin 0) = Fin q /\
    q == inject_Z (Z.of_nat (length (filter p (range k)))).
Proof.
  induction k as [|k (q & E & Hq)].
  - exists 0. split; reflexivity.
  - rewrite for_range_S, E. unfold range. rewrite seq_S, filter_app, length_app.
    simpl. exists (q + inject_Z (Z.of_nat (if p k then 1 else 0))). split; [reflexivity|].
    rewrite Hq, inject_nat_plus. destruct (p k); reflexivity.
Qed.

Lemma filter_length_le (A : Type) (p : A -> bool) (l : list A) :
  (length (filter p l) <= length l)%nat.
Proof.
  induction l as [|x l IH]; simpl; [lia|]. destruct (p x); simpl; lia.
Qed.

Lemma list_sum_map_add (A : Type) (f g : A -> nat) (l : list A) :
  list_sum (map (fun x => f x + g x)%nat l) = (list_sum (map f l) + list_sum (map g l))%nat.
Proof.
  induction l as [|x l IH]; simpl; [reflexivity|]. rewrite IH. lia.
Qed.

Lemma list_sum_indicator (n d : nat) (b : bool) :
  (d < n)%nat ->
  list_sum (map (fun i => if b && (i =? d)%nat then 1 else 0)%nat (range n))
  = if b then 1%nat else 0%nat.
Proof.
  intro Hd. destruct b; simpl.
  - induction n as [|n IH]; [lia|].
    unfold range in *. rewrite seq_S, map_app, list_sum_app. simpl.
    destruct (Nat.eqb_spec n d) as [->|Hne].
    + assert (H0 : list_sum (map (fun i => if (i =? d)%nat then 1 else 0)%nat (seq 0 d)) = 0%nat).
      { clear. assert (H : forall i, In i (seq 0 d) -> (i =? d)%nat = false).
        { intros i Hi. apply in_seq in Hi. apply Nat.eqb_neq. lia. }
        induction (seq 0 d) as [|x l IHl]; simpl; [reflexivity|].
        rewrite (H x) by (left; reflexivity).
        apply IHl. intros; apply H; right; assumption. }
      rewrite H0. reflexivity.
    + rewrite IH by lia. reflexivity.
  - induction (range n) as [|x l IHl]; simpl; [reflexivity|]. exact IHl.
Qed.

(** Splitting a count by destination. *)
Lemma count_by_destination (A : Type) (p : A -> bool) (dest : A -> nat) (n : nat)
      (l : list A) :
  (forall x, In x l -> (dest x < n)%nat) ->
  list_sum (map (fun i => length (filter (fun x => p x && (i =? dest x)%nat) l)) (range n))
  = length (filter p l).
Proof.
  induction l as [|x l IH]; intro H.
  - simpl. induction (range n) as [|y r IHr]; simpl; [reflexivity|exact IHr].
  - transitivity
      (list_sum (map (fun i => (if p x && (i =? dest x)%nat then 1 else 0)
                               + length (filter (fun x' => p x' && (i =? dest x')%nat) l))%nat
                     (range n))).
    + f_equal. apply map_ext. intro i. simpl.
      destruct (p x && (i =? dest x)%nat); reflexivity.
    + rewrite list_sum_map_add, list_sum_indicator by (apply H; left; reflexivity).
      rewrite IH by (intros; apply H; right; assumption).
      simpl. destruct (p x); reflexivity.
Qed.

Lemma fold_Qplus_inject (A : Type) (f : A -> Q) (g : A -> nat) (l : list A) :
  (forall x, In x l -> f x == inject_Z (Z.of_nat (g x))) ->
  fold_left Qplus (map f l) 0 == inject_Z (Z.of_nat (list_sum (map g l))).
Proof.
  induction l as [|x l IH]; intro H; simpl.
  - reflexivity.
  - rewrite fold_Qplus_shift, IH by (intros; apply H; right; assumption).
    rewrite (H x) by (left; reflexivity). rewrite inject_nat_plus. ring.
Qed.

End CountingFacts.

(** ** The prior *)

Section PriorFacts.

Local Open Scope Q_scope.

Variables G_nChannels G_nFragments : nat.
Variable significant : array3.

Local Abbreviation counts :=
  (significant_pac_counts_by_destination G_nChannels G_nFragments significant).
Local Abbreviation total := (total_significant_pacs G_nChannels G_nFragments significant).
Local Abbreviation prior := (P_i G_nChannels G_nFragments significant).
Local Abbreviation n_sig := (n_significant G_nChannels G_nFragments significant).
Local Abbreviation n_sig_to := (n_significant_to G_nChannels G_nFragments significant).

(** The counter of destination [i] holds the number of significant
    observations with that destination. *)
Lemma counts_at (i : nat) :
  exists q, counts i = Fin q /\ q == inject_Z (Z.of_nat (n_sig_to i)).
Proof.
  unfold significant_pac_counts_by_destination.
  rewrite (loop3_obs (fun c : array1 => c i)
             (fun frag i' j v =>
                if fgt (significant i' j frag) (Fin 0) && (i =? i')%nat
                then fadd v (Fin 1) else v)).
  - rewrite loop3_as_fold.
    rewrite (fold_left_ext _
               (fun v obs => if stored_positive significant obs && (i =? destination obs)%nat
                             then fadd v (Fin 1) else v)).
    + destruct (counting_fold
                  (fun obs => stored_positive significant obs && (i =? destination obs)%nat)
                  (observations G_nChannels G_nFragments) 0) as (q & E & Hq).
      exists q. split; [exact E|]. rewrite Hq. unfold n_significant_to. ring.
    + intros v [[frag i'] j]. reflexivity.
  - intros frag i' j c _ _ _. unfold prior_body.
    destruct (fgt (significant i' j frag) (Fin 0)); simpl; [|reflexivity].
    unfold set1. destruct (Nat.eqb_spec i i') as [->|]; reflexivity.
Qed.

Lemma counts_finite (i : nat) : counts i = Fin (to_Q (counts i)).
Proof. destruct (counts_at i) as (q & E & _). rewrite E. reflexivity. Qed.

Lemma counts_value (i : nat) : to_Q (counts i) == inject_Z (Z.of_nat (n_sig_to i)).
Proof. destruct (counts_at i) as (q & E & Hq). rewrite E. exact Hq. Qed.

Lemma n_sig_split : list_sum (map n_sig_to (range G_nChannels)) = n_sig.
Proof.
  unfold n_significant_to, n_significant.
  apply count_by_destination.
  intros [[frag i] j] H. apply in_observations in H. simpl. lia.
Qed.

(** The total is the sum of the counters, and the number of significant
    observations. *)
Lemma total_finite :
  total = Fin (fold_left Qplus (map (fun i => to_Q (counts i)) (range G_nChannels)) 0).
Proof.
  unfold total_significant_pacs, np_sum.
  rewrite <- fold_fadd_map_Fin, map_map. f_equal.
  apply map_ext. intro i. apply counts_finite.
Qed.

Lemma total_value : to_Q total == inject_Z (Z.of_nat n_sig).
Proof.
  rewrite total_finite. simpl. rewrite <- n_sig_split.
  apply fold_Qplus_inject. intros i _. apply counts_value.
Qed.

Lemma n_sig_to_le (i : nat) : (n_sig_to i <= n_sig)%nat.
Proof.
  unfold n_significant_to, n_significant.
  apply filter_length_mono. intros obs _ H. apply andb_true_iff in H. apply H.
Qed.

Lemma n_sig_positive :
  (exists i j frag, (i < G_nChannels)%nat /\ (j < G_nChannels)%nat /\
                    (frag < G_nFragments)%nat /\ fgt (significant i j frag) (Fin 0) = true) ->
  (0 < n_sig)%nat.
Proof.
  intros (i & j & frag & Hi & Hj & Hf & Hpos).
  unfold n_significant.
  assert (Hin : In (frag, i, j) (filter (stored_positive significant)
                                        (observations G_nChannels G_nFragments))).
  { apply filter_In. split; [apply in_observations; auto|exact Hpos]. }
  destruct (filter _ _); [contradiction|simpl; lia].
Qed.

Lemma n_sig_zero :
  (forall i j frag, (i < G_nChannels)%nat -> (j < G_nChannels)%nat ->
                    (frag < G_nFragments)%nat -> fgt (significant i j frag) (Fin 0) = false) ->
  n_sig = 0%nat.
Proof.
  intro H. unfold n_significant.
  assert (Hnone : forall obs, In obs (observations G_nChannels G_nFragments) ->
                              stored_positive significant obs = false).
  { intros [[frag i] j] Hin. apply in_observations in Hin. simpl. apply H; lia. }
  induction (observations G_nChannels G_nFragments) as [|obs l IH]; [reflexivity|].
  simpl. rewrite (Hnone obs) by (left; reflexivity).
  apply IH. intros; apply Hnone; right; assumption.
Qed.

(** With a significant observation, every prior is the share of its
    destination. *)
Lemma P_i_value (i : nat) :
  (0 < n_sig)%nat ->
  prior i = Fin (to_Q (counts i) / to_Q total) /\
  to_Q (counts i) / to_Q total
  == inject_Z (Z.of_nat (n_sig_to i)) / inject_Z (Z.of_nat n_sig).
Proof.
  intro Hpos.
  assert (Hne : ~ to_Q total == 0).
  { rewrite total_value. intro E. pose proof (inject_nat_pos Hpos) as Hlt.
    rewrite E in Hlt. apply (Qlt_irrefl _ Hlt). }
  split.
  - unfold P_i. rewrite counts_finite. rewrite total_finite at 1. simpl.
    rewrite total_finite in Hne. simpl in Hne.
    apply Qeq_bool_false in Hne. rewrite Hne.
    rewrite total_finite. reflexivity.
  - rewrite counts_value, total_value. reflexivity.
Qed.

(** Whenever at least one significant observation exists, every entry of
    the prior is the count of significant observations with that destination
    over the total significant count, and the entries sum to one. *)
Lemma P_i_sums_to_one :
  (exists i j frag, (i < G_nChannels)%nat /\ (j < G_nChannels)%nat /\
                    (frag < G_nFragments)%nat /\ fgt (significant i j frag) (Fin 0) = true) ->
  (forall i, prior i ~= Fin (inject_Z (Z.of_nat (n_sig_to i)) / inject_Z (Z.of_nat n_sig))) /\
  np_sum (map prior (range G_nChannels)) ~= Fin 1.
Proof.
  intro Hex. pose proof (n_sig_positive Hex) as Hpos.
  split.
  - intro i. destruct (P_i_value i Hpos) as [E Hq]. rewrite E. exact Hq.
  - assert (Hne : ~ to_Q total == 0).
    { rewrite total_value. intro E. pose proof (inject_nat_pos Hpos) as Hlt.
      rewrite E in Hlt. apply (Qlt_irrefl _ Hlt). }
    unfold np_sum.
    rewrite (map_ext prior (fun i => Fin (to_Q (counts i) / to_Q total)))
      by (intro i; apply (P_i_value i Hpos)).
    rewrite <- (map_map (fun i => to_Q (counts i) / to_Q total) Fin).
    rewrite fold_fadd_map_Fin. simpl.
    rewrite <- (map_map (fun i => to_Q (counts i)) (fun q => q / to_Q total)).
    rewrite fold_Qplus_div by exact Hne.
    rewrite total_finite at 1. simpl. field.
    rewrite total_finite in Hne. exact Hne.
Qed.

(** Without any significant observation the prior cell divides zero counts
    by a zero total: every entry is [nan]. *)
Lemma P_i_nan_without_significant :
  (forall i j frag, (i < G_nChannels)%nat -> (j < G_nChannels)%nat ->
                    (frag < G_nFragments)%nat -> fgt (significant i j frag) (Fin 0) = false) ->
  forall i, prior i = NaN.
Proof.
  intros H i. pose proof (n_sig_zero H) as Hz.
  assert (Hc : to_Q (counts i) == 0).
  { rewrite counts_value. pose proof (n_sig_to_le i) as Hle.
    replace (n_sig_to i) with 0%nat by lia. reflexivity. }
  assert (Ht : to_Q total == 0) by (rewrite total_value, Hz; reflexivity).
  unfold P_i. rewrite counts_finite.
  rewrite total_finite in *. simpl in *.
  apply Qeq_bool_iff in Hc. apply Qeq_bool_iff in Ht. rewrite Ht, Hc. reflexivity.
Qed.

(** The prior is never infinite. *)
Lemma P_i_not_infinite (i : nat) : is_infinite (prior i) = false.
Proof.
  destruct (Nat.eq_dec n_sig 0) as [Hz|Hnz].
  - assert (Hc : to_Q (counts i) == 0).
    { rewrite counts_value. pose proof (n_sig_to_le i) as Hle.
      replace (n_sig_to i) with 0%nat by lia. reflexivity. }
    assert (Ht : to_Q total == 0) by (rewrite total_value, Hz; reflexivity).
    unfold P_i. rewrite counts_finite.
    rewrite total_finite in *. simpl in *.
    apply Qeq_bool_iff in Hc. apply Qeq_bool_iff in Ht. rewrite Ht, Hc.
    reflexivity.
  - destruct (P_i_value i) as [E _]; [lia|]. rewrite E. reflexivity.
Qed.

Lemma P_i_finite_nonneg (i : nat) : (0 < n_sig)%nat -> finite_nonneg (prior i).
Proof.
  intro Hpos. destruct (P_i_value i Hpos) as [E Hq].
  exists (to_Q (counts i) / to_Q total). split; [exact E|].
  rewrite Hq. apply Qle_shift_div_l.
  - apply inject_nat_pos. exact Hpos.
  - rewrite Qmult_0_l. apply inject_nat_nonneg.
Qed.

End PriorFacts.

(** ** Special values in sums, products and guarded quotients *)

Section SpecialValueFacts.

Local Open Scope Q_scope.

Lemma fold_fadd_member_not_finite (l : list npfloat) (x y : npfloat) :
  In y l -> is_finite y = false -> is_finite (fold_left fadd l x) = false.
Proof.
  revert x. induction l as [|z l IH]; intros x Hin Hy; [contradiction|].
  simpl. destruct Hin as [->|Hin].
  - apply fold_fadd_not_finite. destruct x, y; simpl in *; congruence.
  - apply IH; assumption.
Qed.

Lemma fold_fadd_not_infinite (l : list npfloat) (x : npfloat) :
  is_infinite x = false ->
  (forall y, In y l -> is_infinite y = false) ->
  is_infinite (fold_left fadd l x) = false.
Proof.
  revert x. induction l as [|z l IH]; intros x Hx H; simpl; [exact Hx|].
  apply IH.
  - pose proof (H z (or_introl eq_refl)) as Hz.
    destruct x, z; simpl in *; congruence.
  - intros; apply H; right; assumption.
Qed.

Lemma fmul_not_infinite (a b : npfloat) :
  is_infinite a = false -> is_infinite b = false -> is_infinite (fmul a b) = false.
Proof. destruct a, b; simpl; congruence. Qed.

Lemma fmul_finite (a b : npfloat) (q : Q) :
  fmul a b = Fin q -> a = Fin (to_Q a) /\ b = Fin (to_Q b).
Proof.
  destruct a as [x| | |], b as [y| | |]; simpl; try discriminate.
  - intros _. split; reflexivity.
  - destruct (Qeq_bool x 0); [discriminate|]. destruct (Qltb 0 x); discriminate.
  - destruct (Qeq_bool x 0); [discriminate|]. destruct (Qltb x 0); discriminate.
  - destruct (Qeq_bool y 0); [discriminate|]. destruct (Qltb 0 y); discriminate.
  - destruct (Qeq_bool y 0); [discriminate|]. destruct (Qltb y 0); discriminate.
Qed.

(** A quotient guarded by [s != 0] whose numerator is one of the terms of
    the sum [s], or is finite, is never infinite. *)
Lemma guarded_quotient_not_infinite (a s : npfloat) :
  (is_finite a = false -> is_finite s = false) ->
  is_infinite (if fneb s (Fin 0) then fdiv a s else Fin 0) = false.
Proof.
  intro H. unfold fneb.
  destruct a as [x| | |], s as [y| | |]; simpl; try reflexivity;
    try (specialize (H eq_refl); discriminate).
  destruct (Qeq_bool y 0); reflexivity.
Qed.

Lemma finite_nonneg_zero : finite_nonneg (Fin 0).
Proof. exists 0. split; [reflexivity|apply Qle_refl]. Qed.

Lemma fadd_nonneg (a b : npfloat) :
  finite_nonneg a -> finite_nonneg b -> finite_nonneg (fadd a b).
Proof.
  intros (x & -> & Hx) (y & -> & Hy). exists (x + y). split; [reflexivity|]. lra.
Qed.

Lemma fmul_nonneg (a b : npfloat) :
  finite_nonneg a -> finite_nonneg b -> finite_nonneg (fmul a b).
Proof.
  intros (x & -> & Hx) (y & -> & Hy). exists (x * y). split; [reflexivity|].
  apply Qmult_le_0_compat; assumption.
Qed.

Lemma fold_fadd_nonneg (l : list npfloat) (x : npfloat) :
  finite_nonneg x -> (forall y, In y l -> finite_nonneg y) ->
  finite_nonneg (fold_left fadd l x).
Proof.
  revert x. induction l as [|z l IH]; intros x Hx H; simpl; [exact Hx|].
  apply IH.
  - apply fadd_nonneg; [exact Hx|apply H; left; reflexivity].
  - intros; apply H; right; assumption.
Qed.

Lemma guarded_quotient_nonneg (a s : npfloat) :
  finite_nonneg a -> finite_nonneg s ->
  finite_nonneg (if fneb s (Fin 0) then fdiv a s else Fin 0).
Proof.
  intros (x & -> & Hx) (y & -> & Hy). unfold fneb. simpl.
  destruct (Qeq_bool y 0) eqn:E; simpl; [apply finite_nonneg_zero|].
  exists (x / y). split; [reflexivity|].
  apply Qeq_bool_false in E.
  apply Qle_shift_div_l; [|lra].
  destruct (Qlt_le_dec 0 y) as [Hlt|Hle]; [exact Hlt|].
  exfalso. apply E. lra.
Qed.

(** For a finite value that is not negative, [> 0] and [!= 0] agree. *)
Lemma positive_iff_nonzero (p : npfloat) :
  finite_nonneg p -> fgt p (Fin 0) = fneb p (Fin 0).
Proof.
  intros (q & -> & Hq). unfold fneb. simpl.
  destruct (Qeq_bool q 0) eqn:E; simpl.
  - apply Qeq_bool_iff in E. apply Qltb_false. lra.
  - apply Qeq_bool_false in E. apply Qltb_true.
    destruct (Qlt_le_dec 0 q) as [Hlt|Hle]; [exact Hlt|].
    exfalso. apply E. lra.
Qed.

End SpecialValueFacts.

Create HintDb npfloat.

#[export] Hint Resolve finite_nonneg_zero fadd_nonneg fmul_nonneg fold_fadd_nonneg
  guarded_quotient_nonneg : npfloat.

(** ** The evidence, the posterior and the reported matrix *)

Section BayesFacts.

Local Open Scope Q_scope.

Variables G_nChannels G_nFragments : nat.
Variable kde : npfloat -> npfloat.
Variable significant : array3.

Local Abbreviation prior := (P_i G_nChannels G_nFragments significant).
Local Abbreviation raw := (P_x_given_i_raw G_nChannels G_nFragments kde significant).
Local Abbreviation lik := (P_x_given_i G_nChannels G_nFragments kde significant).
Local Abbreviation evidence := (P_x G_nChannels G_nFragments kde significant).
Local Abbreviation posterior :=
  (P_i_given_x_fragments G_nChannels G_nFragments kde significant).
Local Abbreviation quotient := (bayes_quotient G_nChannels G_nFragments kde significant).
Local Abbreviation reported := (P_i_given_x_mean G_nChannels G_nFragments kde significant).
Local Abbreviation n_sig := (n_significant G_nChannels G_nFragments significant).

(** The evidence of source [x] in a fragment: the dot product of the prior
    with column [x] of the fragment's likelihood. *)
Lemma P_x_at (x frag : nat) :
  evidence x frag
  = if (frag <? G_nFragments)%nat
    then np_sum (map (fun i => fmul (prior i) (lik i x frag)) (range G_nChannels))
    else Fin 0.
Proof.
  unfold P_x.
  rewrite (for_range_obs (fun a : array2 => a x frag)
             (fun frag' v =>
                if (frag' =? frag)%nat
                then (fun _ => np_sum (map (fun i => fmul (prior i) (lik i x frag))
                                           (range G_nChannels))) v
                else v)).
  - rewrite for_range_hit. reflexivity.
  - intros frag' a _. unfold set_col. rewrite (Nat.eqb_sym frag frag').
    destruct (Nat.eqb_spec frag' frag) as [->|]; reflexivity.
Qed.

(** The state of the posterior loop after [k] fragments. *)
Lemma posterior_loop_invariant (k : nat) :
  let st := for_range k (posterior_body G_nChannels G_nFragments kde significant)
                      (np_zeros3, np_zeros2) in
  (forall i x frag,
      fst st i x frag = if (frag <? k)%nat then quotient i x frag else Fin 0) /\
  (forall i x,
      snd st i x
      = for_range k (fun frag v =>
                       fadd v (of_nat (if fgt (quotient i x frag) (Fin 0) then 1 else 0)))
                  (Fin 0)).
Proof.
  induction k as [|k [IHP IHc]].
  - split; reflexivity.
  - cbv zeta in *. rewrite for_range_S.
    destruct (for_range k (posterior_body G_nChannels G_nFragments kde significant)
                        (np_zeros3, np_zeros2)) as [P c].
    simpl in IHP, IHc.
    split.
    + intros i x frag. simpl. unfold set_frag, frag_of.
      destruct (Nat.eqb_spec frag k) as [->|Hne].
      * ltb_decide. rewrite Nat.eqb_refl. reflexivity.
      * rewrite IHP. destruct (Nat.ltb_spec frag k) as [Hlt|Hge]; ltb_decide; reflexivity.
    + intros i x. simpl. rewrite for_range_S.
      unfold add2, positive_indicator, frag_of, set_frag.
      rewrite !Nat.eqb_refl, IHc. reflexivity.
Qed.

Lemma P_i_given_x_fragments_at (i x frag : nat) :
  posterior i x frag = if (frag <? G_nFragments)%nat then quotient i x frag else Fin 0.
Proof.
  unfold P_i_given_x_fragments, posterior_loop.
  apply (proj1 (posterior_loop_invariant G_nFragments)).
Qed.

(** The counter of [(i, x)] holds the number of fragments whose posterior
    of [(i, x)] is positive. *)
Lemma P_i_given_x_significant_counts_at (i x : nat) :
  exists q,
    P_i_given_x_significant_counts G_nChannels G_nFragments kde significant i x = Fin q /\
    q == inject_Z (Z.of_nat (length (filter (fun frag => fgt (posterior i x frag) (Fin 0))
                                            (range G_nFragments)))).
Proof.
  unfold P_i_given_x_significant_counts, posterior_loop.
  rewrite (proj2 (posterior_loop_invariant G_nFragments)).
  destruct (counting_loop (fun frag => fgt (quotient i x frag) (Fin 0)) G_nFragments)
    as (q & E & Hq).
  exists q. split; [exact E|]. rewrite Hq.
  rewrite (filter_ext_in (fun frag => fgt (quotient i x frag) (Fin 0))
                         (fun frag => fgt (posterior i x frag) (Fin 0))).
  - reflexivity.
  - intros frag Hin. apply in_range_iff in Hin. apply Nat.ltb_lt in Hin.
    rewrite P_i_given_x_fragments_at, Hin. reflexivity.
Qed.

(** The reported entry is the counter over the number of fragments. *)
Lemma P_i_given_x_mean_at (i x : nat) :
  (0 < G_nFragments)%nat ->
  exists q,
    reported i x = Fin q /\
    q == inject_Z (Z.of_nat (length (filter (fun frag => fgt (posterior i x frag) (Fin 0))
                                            (range G_nFragments))))
         / inject_Z (Z.of_nat G_nFragments).
Proof.
  intro HF. unfold P_i_given_x_mean.
  destruct (P_i_given_x_significant_counts_at i x) as (q & E & Hq).
  rewrite E. unfold of_nat. simpl.
  destruct (Qeq_bool (inject_Z (Z.of_nat G_nFragments)) 0) eqn:Ez.
  - apply inject_nat_eq_zero in Ez. lia.
  - eexists. split; [reflexivity|]. rewrite Hq. reflexivity.
Qed.

(** C5.  With [F > 0] fragments, and whatever the stored values and the
    density are, every entry of the reported matrix is a finite number in
    [[0, 1]], never [nan] nor an infinity; and in any fragment a source [x]
    whose evidence is zero has posterior zero for every destination. *)
Theorem reported_matrix_in_unit_interval :
  (0 < G_nFragments)%nat ->
  (forall i x, exists q, reported i x = Fin q /\ 0 <= q <= 1) /\
  (forall x frag, (frag < G_nFragments)%nat ->
     feqb (evidence x frag) (Fin 0) = true ->
     forall i, posterior i x frag = Fin 0).
Proof.
  intro HF. split.
  - intros i x. destruct (P_i_given_x_mean_at i x HF) as (q & E & Hq).
    exists q. split; [exact E|].
    pose proof (filter_length_le (fun frag => fgt (posterior i x frag) (Fin 0))
                                 (range G_nFragments)) as Hle.
    unfold range in Hle at 2. rewrite length_seq in Hle.
    pose proof (inject_nat_pos HF) as HFpos.
    rewrite Hq. split.
    + apply Qle_shift_div_l; [exact HFpos|]. rewrite Qmult_0_l. apply inject_nat_nonneg.
    + apply Qle_shift_div_r; [exact HFpos|]. rewrite Qmult_1_l.
      apply inject_nat_le. exact Hle.
  - intros x frag Hf Hz i. apply Nat.ltb_lt in Hf.
    rewrite P_i_given_x_fragments_at, Hf. unfold bayes_quotient, fneb.
    rewrite Hz. reflexivity.
Qed.

(** The likelihood and the evidence are never infinite. *)
Lemma P_x_given_i_not_infinite (i x frag : nat) : is_infinite (lik i x frag) = false.
Proof.
  rewrite P_x_given_i_at.
  destruct (frag <? G_nFragments)%nat eqn:Ef.
  - unfold column_normalized. cbv zeta.
    apply guarded_quotient_not_infinite. intro Hnf.
    destruct (Nat.ltb_spec i G_nChannels) as [Hi|Hi].
    + apply fold_fadd_member_not_finite with (y := raw i x frag); [|exact Hnf].
      apply in_map_iff. exists i. split; [reflexivity|apply in_range_iff; exact Hi].
    + rewrite P_x_given_i_raw_at in Hnf.
      replace (i <? G_nChannels)%nat with false in Hnf
        by (symmetry; apply Nat.ltb_ge; exact Hi).
      discriminate.
  - rewrite P_x_given_i_raw_at, Ef, andb_false_r. reflexivity.
Qed.

Lemma P_x_not_infinite (x frag : nat) : is_infinite (evidence x frag) = false.
Proof.
  rewrite P_x_at. destruct (frag <? G_nFragments)%nat; [|reflexivity].
  apply fold_fadd_not_infinite; [reflexivity|].
  intros y Hy. apply in_map_iff in Hy. destruct Hy as (i & <- & _).
  apply fmul_not_infinite; [apply P_i_not_infinite|apply P_x_given_i_not_infinite].
Qed.

(** C7.  In every fragment, for every source [x] whose evidence
    [P(x) = sum_i P(i) P(x|i)] is positive, the posteriors
    [P(i|x) = P(x|i) P(i) / P(x)] sum to one over the destinations. *)
Theorem posterior_column_sums_to_one (x frag : nat) :
  (frag < G_nFragments)%nat ->
  fgt (evidence x frag) (Fin 0) = true ->
  evidence x frag
  = np_sum (map (fun i => fmul (prior i) (lik i x frag)) (range G_nChannels)) /\
  (forall i, posterior i x frag
             = fdiv (fmul (lik i x frag) (prior i)) (evidence x frag)) /\
  np_sum (map (fun i => posterior i x frag) (range G_nChannels)) ~= Fin 1.
Proof.
  intros Hf Hpos. apply Nat.ltb_lt in Hf.
  assert (Hev : evidence x frag
                = np_sum (map (fun i => fmul (prior i) (lik i x frag)) (range G_nChannels))).
  { rewrite P_x_at, Hf. reflexivity. }
  apply fgt_zero_true in Hpos.
  destruct Hpos as [(p & Ep & Hp)|Einf];
    [|pose proof (P_x_not_infinite x frag) as Hn; rewrite Einf in Hn; discriminate].
  assert (Hne : Qeq_bool p 0 = false) by (apply Qeq_bool_false; lra).
  assert (Hpost : forall i, posterior i x frag
                            = fdiv (fmul (lik i x frag) (prior i)) (evidence x frag)).
  { intro i. rewrite P_i_given_x_fragments_at, Hf. unfold bayes_quotient, fneb.
    rewrite Ep. simpl. rewrite Hne. reflexivity. }
  split; [exact Hev|]. split; [exact Hpost|].
  (* every term of the evidence is finite, so both of its factors are *)
  assert (Hterms : forall i, In i (range G_nChannels) ->
                             prior i = Fin (to_Q (prior i)) /\
                             lik i x frag = Fin (to_Q (lik i x frag))).
  { intros i Hi. rewrite Ep in Hev. symmetry in Hev. unfold np_sum in Hev.
    destruct (fold_fadd_finite _ _ Hev) as (qs & Hmap & _).
    assert (Hin : In (fmul (prior i) (lik i x frag)) (map Fin qs)).
    { rewrite <- Hmap. apply in_map_iff. exists i. split; [reflexivity|exact Hi]. }
    apply in_map_iff in Hin. destruct Hin as (q & Hq & _).
    symmetry in Hq. apply (fmul_finite _ _ Hq). }
  (* hence the evidence is the rational dot product *)
  assert (Hp_sum : p = fold_left Qplus
                         (map (fun i => to_Q (prior i) * to_Q (lik i x frag))
                              (range G_nChannels)) 0).
  { assert (E : Fin p = Fin (fold_left Qplus
                                (map (fun i => to_Q (prior i) * to_Q (lik i x frag))
                                     (range G_nChannels)) 0)).
    { rewrite <- Ep, Hev. unfold np_sum. rewrite <- fold_fadd_map_Fin, map_map.
      f_equal. apply map_ext_in. intros i Hi.
      destruct (Hterms i Hi) as [E1 E2]. rewrite E1, E2 at 1. reflexivity. }
    injection E as E. exact E. }
  (* and the posteriors are the rational quotients *)
  unfold np_sum.
  rewrite (map_ext_in (fun i => posterior i x frag)
             (fun i => Fin (to_Q (lik i x frag) * to_Q (prior i) / p))).
  - rewrite <- (map_map (fun i => to_Q (lik i x frag) * to_Q (prior i) / p) Fin).
    rewrite fold_fadd_map_Fin. simpl.
    rewrite (fold_Qplus_ext
               (fun i => to_Q (lik i x frag) * to_Q (prior i) / p)
               (fun i => (to_Q (prior i) * to_Q (lik i x frag)) / p)).
    + rewrite <- (map_map (fun i => to_Q (prior i) * to_Q (lik i x frag))
                          (fun q => q / p)).
      rewrite fold_Qplus_div by lra.
      rewrite <- Hp_sum. field. lra.
    + intros i _. field. lra.
  - intros i Hi. rewrite Hpost, Ep.
    destruct (Hterms i Hi) as [E1 E2]. rewrite E1, E2 at 1. simpl.
    rewrite Hne. reflexivity.
Qed.

End BayesFacts.

(** ** The density fit *)

Section DensityFacts.

Variables G_nChannels G_nFragments : nat.
Variable scipy_kde_fit : list npfloat -> result (npfloat -> npfloat).
Variable significant : array3.

Lemma filter_nil_iff (A : Type) (p : A -> bool) (l : list A) :
  filter p l = [] <-> forall x, In x l -> p x = false.
Proof.
  induction l as [|x l IH]; simpl.
  - split; [intros _ y []|reflexivity].
  - destruct (p x) eqn:E; split.
    + discriminate.
    + intro H. specialize (H x (or_introl eq_refl)). congruence.
    + intros H y [<-|Hy]; [exact E|]. apply IH; assumption.
    + intro H. apply IH. intros; apply H; right; assumption.
Qed.




(** C8.  The strengths that reach the density fit are modulation indices,
    finite and never negative, or the zero that encodes a non-significant
    observation.  On such an array the cell pools the stored values of every
    (source, destination, fragment) triple into one flat population, discards
    the zero-encoded entries, takes the absolute value of each retained value
    (scaled as the notebook scales it) and hands that one population to a
    single fit, which fails when the population is empty. *)
Theorem density_fit_pools_significant_strengths :
  (forall i j frag, i < G_nChannels -> j < G_nChannels -> frag < G_nFragments ->
                    finite_nonneg (significant i j frag)) ->
  let population := population_as_specified G_nChannels G_nFragments significant in
  map fabs (significant_pac_values_flat_fragments G_nChannels G_nFragments significant)
  = population /\
  (forall v, In v population <->
     exists i j frag, i < G_nChannels /\ j < G_nChannels /\ frag < G_nFragments /\
                      fneb (significant i j frag) (Fin 0) = true /\
                      v = fabs (fmul (significant i j frag) (Fin 100000))) /\
  kde_fragments scipy_kde_fit G_nChannels G_nFragments significant
  = gaussian_kde scipy_kde_fit population /\
  (population = [] ->
   kde_fragments scipy_kde_fit G_nChannels G_nFragments significant = Raise ValueError).
Proof.
  intros Hnonneg population.
  assert (Hd : map fabs (significant_pac_values_flat_fragments
                           G_nChannels G_nFragments significant) = population).
  { unfold significant_pac_values_flat_fragments, population, population_as_specified.
    rewrite map_map. f_equal.
    apply filter_ext_in. intros v Hv. apply in_flatten3 in Hv.
    destruct Hv as (i & j & frag & Hi & Hj & Hf & <-).
    apply positive_iff_nonzero. apply Hnonneg; assumption. }
  split; [exact Hd|]. split; [|split].
  - intro v. unfold population, population_as_specified.
    rewrite in_map_iff. split.
    + intros (s & Ev & Hs). apply filter_In in Hs. destruct Hs as [Hs Hnz].
      apply in_flatten3 in Hs. destruct Hs as (i & j & frag & Hi & Hj & Hf & <-).
      exists i, j, frag. auto.
    + intros (i & j & frag & Hi & Hj & Hf & Hnz & ->).
      exists (significant i j frag). split; [reflexivity|].
      apply filter_In. split; [|exact Hnz].
      apply in_flatten3. exists i, j, frag. auto.
  - unfold kde_fragments. rewrite Hd. reflexivity.
  - intro He. unfold kde_fragments. rewrite Hd, He. reflexivity.
Qed.

End DensityFacts.

(** ** The prior behind the density fit *)

Section PriorAfterFit.

Local Open Scope Q_scope.

Variables G_nChannels G_nFragments : nat.
Variable scipy_kde_fit : list npfloat -> result (npfloat -> npfloat).
Variable significant : array3.


End PriorAfterFit.

(** ** Stored values that are not positive *)

Section DownstreamFacts.

Local Open Scope Q_scope.

Variables G_nChannels G_nFragments : nat.
Variable kde : npfloat -> npfloat.

Lemma filter_flat_map (A B : Type) (p : B -> bool) (f : A -> list B) (l : list A) :
  filter p (flat_map f l) = flat_map (fun x => filter p (f x)) l.
Proof.
  induction l as [|x l IH]; simpl; [reflexivity|].
  rewrite filter_app, IH. reflexivity.
Qed.

Lemma filter_map_same (A B : Type) (p : B -> bool) (f g : A -> B) (l : list A) :
  (forall x, p (f x) = p (g x) /\ (p (f x) = true -> f x = g x)) ->
  filter p (map f l) = filter p (map g l).
Proof.
  intro H. induction l as [|x l IH]; simpl; [reflexivity|].
  destruct (H x) as [Hp Hv]. rewrite <- Hp.
  destruct (p (f x)) eqn:E; [|exact IH].
  rewrite (Hv eq_refl), IH. reflexivity.
Qed.

Lemma zero_or_nan_zero : zero_or_nan (Fin 0).
Proof. right. exists 0. split; reflexivity. Qed.

Lemma fmul_zero_or_nan (a b : npfloat) : zero_or_nan a -> zero_or_nan (fmul a b).
Proof.
  intros [->|(q & -> & Hq)]; [left; reflexivity|].
  apply Qeq_bool_iff in Hq.
  destruct b as [y| | |]; simpl.
  - right. exists (q * y). split; [reflexivity|].
    apply Qeq_bool_iff in Hq. rewrite Hq. ring.
  - rewrite Hq. left; reflexivity.
  - rewrite Hq. left; reflexivity.
  - left; reflexivity.
Qed.

Lemma fdiv_zero_or_nan (a b : npfloat) : zero_or_nan a -> zero_or_nan (fdiv a b).
Proof.
  intros [->|(q & -> & Hq)]; [left; reflexivity|].
  destruct b as [y| | |]; simpl.
  - destruct (Qeq_bool y 0) eqn:Ey.
    + apply Qeq_bool_iff in Hq. rewrite Hq. left; reflexivity.
    + right. exists (q / y). split; [reflexivity|].
      apply Qeq_bool_false in Ey. rewrite Hq. field. exact Ey.
  - apply zero_or_nan_zero.
  - apply zero_or_nan_zero.
  - left; reflexivity.
Qed.

Lemma guarded_quotient_zero_or_nan (a s : npfloat) :
  zero_or_nan a -> zero_or_nan (if fneb s (Fin 0) then fdiv a s else Fin 0).
Proof.
  intro H. destruct (fneb s (Fin 0)); [apply fdiv_zero_or_nan; exact H|apply zero_or_nan_zero].
Qed.

Lemma zero_or_nan_not_positive (x : npfloat) : zero_or_nan x -> fgt x (Fin 0) = false.
Proof.
  intros [->|(q & -> & Hq)]; [reflexivity|].
  simpl. apply Qltb_false. rewrite Hq. apply Qle_refl.
Qed.

(** A stored value that is not positive has likelihood zero, and its
    normalised likelihood and its posterior are never positive. *)
Lemma not_positive_likelihood (significant : array3) (i j frag : nat) :
  fgt (significant i j frag) (Fin 0) = false ->
  P_x_given_i_raw G_nChannels G_nFragments kde significant i j frag = Fin 0 /\
  zero_or_nan (P_x_given_i G_nChannels G_nFragments kde significant i j frag) /\
  zero_or_nan (P_i_given_x_fragments G_nChannels G_nFragments kde significant i j frag).
Proof.
  intro Hnp.
  assert (Hraw : P_x_given_i_raw G_nChannels G_nFragments kde significant i j frag = Fin 0).
  { rewrite P_x_given_i_raw_at, Hnp.
    destruct ((i <? G_nChannels)%nat && (j <? G_nChannels)%nat && (frag <? G_nFragments)%nat);
      reflexivity. }
  assert (Hlik : zero_or_nan (P_x_given_i G_nChannels G_nFragments kde significant i j frag)).
  { rewrite P_x_given_i_at. destruct (frag <? G_nFragments)%nat.
    - unfold column_normalized. cbv zeta. rewrite Hraw.
      apply guarded_quotient_zero_or_nan, zero_or_nan_zero.
    - rewrite Hraw. apply zero_or_nan_zero. }
  split; [exact Hraw|]. split; [exact Hlik|].
  rewrite P_i_given_x_fragments_at. destruct (frag <? G_nFragments)%nat.
  - unfold bayes_quotient. cbv zeta.
    apply guarded_quotient_zero_or_nan, fmul_zero_or_nan. exact Hlik.
  - apply zero_or_nan_zero.
Qed.

(** Every downstream stage reads the stored values through their positive
    part only. *)
Section SamePositivePart.

Variables s s' : array3.
Hypothesis Hsame : same_positive_part s s'.

Lemma population_same :
  significant_pac_values_flat_fragments G_nChannels G_nFragments s
  = significant_pac_values_flat_fragments G_nChannels G_nFragments s'.
Proof.
  unfold significant_pac_values_flat_fragments, flatten3. f_equal.
  rewrite !filter_flat_map. apply flat_map_ext. intro i.
  rewrite !filter_flat_map. apply flat_map_ext. intro j.
  apply filter_map_same. intro frag. apply Hsame.
Qed.

Lemma counts_same (i : nat) :
  significant_pac_counts_by_destination G_nChannels G_nFragments s i
  = significant_pac_counts_by_destination G_nChannels G_nFragments s' i.
Proof.
  unfold significant_pac_counts_by_destination.
  apply (f_equal (fun c : array1 => c i)).
  apply loop3_ext. intros frag i' j c _ _ _. unfold prior_body.
  rewrite (proj1 (Hsame i' j frag)). reflexivity.
Qed.

Lemma P_i_same (i : nat) :
  P_i G_nChannels G_nFragments s i = P_i G_nChannels G_nFragments s' i.
Proof.
  unfold P_i, total_significant_pacs. rewrite counts_same. f_equal. f_equal.
  apply map_ext. intro i'. apply counts_same.
Qed.

Lemma P_x_given_i_raw_same (i j frag : nat) :
  P_x_given_i_raw G_nChannels G_nFragments kde s i j frag
  = P_x_given_i_raw G_nChannels G_nFragments kde s' i j frag.
Proof.
  rewrite !P_x_given_i_raw_at. destruct (Hsame i j frag) as [Hp Hv]. rewrite <- Hp.
  destruct (fgt (s i j frag) (Fin 0)); [rewrite (Hv eq_refl)|]; reflexivity.
Qed.

Lemma P_x_given_i_same (i j frag : nat) :
  P_x_given_i G_nChannels G_nFragments kde s i j frag
  = P_x_given_i G_nChannels G_nFragments kde s' i j frag.
Proof.
  rewrite !P_x_given_i_at, P_x_given_i_raw_same. unfold column_normalized. cbv zeta.
  rewrite P_x_given_i_raw_same.
  rewrite (map_ext (fun i' => P_x_given_i_raw G_nChannels G_nFragments kde s i' j frag)
                   (fun i' => P_x_given_i_raw G_nChannels G_nFragments kde s' i' j frag))
    by (intro; apply P_x_given_i_raw_same).
  reflexivity.
Qed.

Lemma P_x_same (x frag : nat) :
  P_x G_nChannels G_nFragments kde s x frag = P_x G_nChannels G_nFragments kde s' x frag.
Proof.
  rewrite !P_x_at.
  rewrite (map_ext
             (fun i => fmul (P_i G_nChannels G_nFragments s i)
                            (P_x_given_i G_nChannels G_nFragments kde s i x frag))
             (fun i => fmul (P_i G_nChannels G_nFragments s' i)
                            (P_x_given_i G_nChannels G_nFragments kde s' i x frag)))
    by (intro; rewrite P_i_same, P_x_given_i_same; reflexivity).
  reflexivity.
Qed.

Lemma bayes_quotient_same (i x frag : nat) :
  bayes_quotient G_nChannels G_nFragments kde s i x frag
  = bayes_quotient G_nChannels G_nFragments kde s' i x frag.
Proof.
  unfold bayes_quotient. rewrite P_x_same, P_x_given_i_same, P_i_same. reflexivity.
Qed.

Lemma P_i_given_x_mean_same (i x : nat) :
  P_i_given_x_mean G_nChannels G_nFragments kde s i x
  = P_i_given_x_mean G_nChannels G_nFragments kde s' i x.
Proof.
  unfold P_i_given_x_mean, P_i_given_x_significant_counts, posterior_loop.
  rewrite !(proj2 (posterior_loop_invariant _ _ _ _ G_nFragments)).
  f_equal. apply for_range_ext. intros frag v _.
  rewrite bayes_quotient_same. reflexivity.
Qed.

End SamePositivePart.

(** Recording a stored value that is not positive as zero changes nothing
    that the downstream test can see. *)
Lemma same_positive_part_zeroed (significant : array3) (i j frag : nat) :
  fgt (significant i j frag) (Fin 0) = false ->
  same_positive_part significant (set3 significant i j frag (Fin 0)).
Proof.
  intros Hnp i' j' frag'. unfold set3.
  destruct (Nat.eqb_spec i' i) as [->|]; [|split; reflexivity].
  destruct (Nat.eqb_spec j' j) as [->|]; [|split; reflexivity].
  destruct (Nat.eqb_spec frag' frag) as [->|]; [|split; reflexivity].
  simpl. rewrite Hnp. split; [reflexivity|discriminate].
Qed.

End DownstreamFacts.

(** ** The reported matrix is a prevalence *)

(** On the example of two channels and two fragments the reported entry of
    destination 0 and source 1 is 1/2 (one fragment of two), while the mean
    of the two posteriors, 3/5 and 0, is 3/10. *)
Lemma reported_differs_from_mean_example :
  Examples.lowest_terms (P_i_given_x_mean 2 2 Examples.toy_density Examples.stored 0 1)
  = Fin (1 # 2) /\
  Examples.lowest_terms (mean_of_posteriors 2 2 Examples.toy_density Examples.stored 0 1)
  = Fin (3 # 10) /\
  ~ (P_i_given_x_mean 2 2 Examples.toy_density Examples.stored 0 1
     ~= mean_of_posteriors 2 2 Examples.toy_density Examples.stored 0 1).
Proof.
  split; [vm_compute; reflexivity|]. split; [vm_compute; reflexivity|].
  vm_compute. intro H. discriminate H.
Qed.

Section PrevalenceFacts.

Local Open Scope Q_scope.

Variables G_nChannels G_nFragments : nat.
Variable kde : npfloat -> npfloat.
Variable significant : array3.

Hypothesis kde_nonneg : forall v, finite_nonneg (kde v).
Hypothesis some_significant : (0 < n_significant G_nChannels G_nFragments significant)%nat.

Lemma P_x_given_i_raw_nonneg (i j frag : nat) :
  finite_nonneg (P_x_given_i_raw G_nChannels G_nFragments kde significant i j frag).
Proof.
  rewrite P_x_given_i_raw_at.
  destruct ((i <? G_nChannels)%nat && (j <? G_nChannels)%nat && (frag <? G_nFragments)%nat);
    [|auto with npfloat].
  destruct (fgt (significant i j frag) (Fin 0)); auto with npfloat.
Qed.

Lemma P_x_given_i_nonneg (i j frag : nat) :
  finite_nonneg (P_x_given_i G_nChannels G_nFragments kde significant i j frag).
Proof.
  pose proof P_x_given_i_raw_nonneg as Hraw.
  rewrite P_x_given_i_at. destruct (frag <? G_nFragments)%nat; [|apply Hraw].
  unfold column_normalized. cbv zeta.
  apply guarded_quotient_nonneg; [apply Hraw|].
  apply fold_fadd_nonneg; [auto with npfloat|].
  intros y Hy. apply in_map_iff in Hy. destruct Hy as (i' & <- & _). apply Hraw.
Qed.

Lemma P_x_nonneg (x frag : nat) :
  finite_nonneg (P_x G_nChannels G_nFragments kde significant x frag).
Proof.
  pose proof P_x_given_i_nonneg as Hlik.
  pose proof (fun i => P_i_finite_nonneg G_nChannels G_nFragments significant i
                                         some_significant) as Hprior.
  rewrite P_x_at. destruct (frag <? G_nFragments)%nat; [|auto with npfloat].
  apply fold_fadd_nonneg; [auto with npfloat|].
  intros y Hy. apply in_map_iff in Hy. destruct Hy as (i & <- & _).
  auto with npfloat.
Qed.

Lemma P_i_given_x_fragments_nonneg (i x frag : nat) :
  finite_nonneg (P_i_given_x_fragments G_nChannels G_nFragments kde significant i x frag).
Proof.
  pose proof P_x_given_i_nonneg as Hlik.
  pose proof P_x_nonneg as Hev.
  pose proof (fun i => P_i_finite_nonneg G_nChannels G_nFragments significant i
                                         some_significant) as Hprior.
  rewrite P_i_given_x_fragments_at. destruct (frag <? G_nFragments)%nat;
    [|auto with npfloat].
  unfold bayes_quotient. cbv zeta. auto with npfloat.
Qed.

End PrevalenceFacts.

Section ReportedFacts.

Local Open Scope Q_scope.

Variables G_nChannels G_nFragments : nat.
Variable kde : npfloat -> npfloat.
Variable significant : array3.

Local Abbreviation posterior :=
  (P_i_given_x_fragments G_nChannels G_nFragments kde significant).

(** C6.  With [F > 0] fragments, the reported posterior of a pair
    (destination [i], source [x]) is the number of fragments in which the
    per-fragment posterior of the pair is positive, over [F].  When the
    density is finite and not negative and a significant observation exists,
    a posterior is positive exactly when it is not zero, so this is the
    fraction of fragments with a non-zero posterior.  It is not the mean of
    the per-fragment posteriors: there are inputs on which the two differ. *)
Theorem reported_is_prevalence (i x : nat) :
  (0 < G_nFragments)%nat ->
  P_i_given_x_mean G_nChannels G_nFragments kde significant i x
  ~= Fin (inject_Z (Z.of_nat (length (filter (fun frag => fgt (posterior i x frag) (Fin 0))
                                             (range G_nFragments))))
          / inject_Z (Z.of_nat G_nFragments)) /\
  ((forall v, finite_nonneg (kde v)) ->
   (exists i' j' frag', (i' < G_nChannels)%nat /\ (j' < G_nChannels)%nat /\
                        (frag' < G_nFragments)%nat /\
                        fgt (significant i' j' frag') (Fin 0) = true) ->
   filter (fun frag => fgt (posterior i x frag) (Fin 0)) (range G_nFragments)
   = filter (fun frag => fneb (posterior i x frag) (Fin 0)) (range G_nFragments)) /\
  (exists n F density stored i0 x0,
      (0 < F)%nat /\
      ~ (P_i_given_x_mean n F density stored i0 x0
         ~= mean_of_posteriors n F density stored i0 x0)).
Proof.
  intro HF. split; [|split].
  - destruct (P_i_given_x_mean_at G_nChannels kde significant i x HF) as (q & E & Hq).
    rewrite E. exact Hq.
  - intros Hkde Hex. apply filter_ext. intro frag.
    apply positive_iff_nonzero.
    apply P_i_given_x_fragments_nonneg; [exact Hkde|].
    apply n_sig_positive. exact Hex.
  - exists 2%nat, 2%nat, Examples.toy_density, Examples.stored, 0%nat, 1%nat.
    split; [lia|]. apply reported_differs_from_mean_example.
Qed.

End ReportedFacts.

(** ** Significant observations whose strength is not positive *)

Section NonPositiveStrength.

Variable np_sqrt : npfloat -> npfloat.
Variables G_nChannels G_nFragments : nat.
Variable kde : npfloat -> npfloat.
Variable pac_values_fragments : array3.
Variable surrogate_pac_values_fragments : nat -> nat -> nat -> list npfloat.

(** C10.  Take an observation that the filter declares significant ([|z|]
    exceeds the threshold) but whose strength is zero or negative.  Its
    strength is stored, and yet every downstream stage treats it as it treats
    a non-significant observation, since each tests [stored > 0]: it does not
    enter the pooled population of the density fit, it adds nothing to the
    prior counts, its likelihood is zero, it never counts as a fragment with
    positive posterior; and the pooled population, the counts and the
    reported matrix are those obtained with a zero stored in its place. *)
Theorem nonpositive_strength_is_not_significant_downstream
        (zThreshold : npfloat) (i j frag : nat) :
  i < G_nChannels -> j < G_nChannels -> frag < G_nFragments ->
  let st := significance_filter np_sqrt G_nChannels G_nFragments zThreshold
              pac_values_fragments surrogate_pac_values_fragments in
  let stored := significant_pac_values_fragments st in
  let zeroed := set3 stored i j frag (Fin 0) in
  exceeds (z_scores_fragments st i j frag) zThreshold = true ->
  fgt (pac_values_fragments i j frag) (Fin 0) = false ->
  stored i j frag = pac_values_fragments i j frag /\
  significant_pac_values_flat_fragments G_nChannels G_nFragments stored
  = significant_pac_values_flat_fragments G_nChannels G_nFragments zeroed /\
  (forall i', significant_pac_counts_by_destination G_nChannels G_nFragments stored i'
              = significant_pac_counts_by_destination G_nChannels G_nFragments zeroed i') /\
  P_x_given_i_raw G_nChannels G_nFragments kde stored i j frag = Fin 0 /\
  fgt (P_x_given_i G_nChannels G_nFragments kde stored i j frag) (Fin 0) = false /\
  fgt (P_i_given_x_fragments G_nChannels G_nFragments kde stored i j frag) (Fin 0) = false /\
  (forall i' x', P_i_given_x_mean G_nChannels G_nFragments kde stored i' x'
                 = P_i_given_x_mean G_nChannels G_nFragments kde zeroed i' x').
Proof.
  intros Hi Hj Hf st stored zeroed Hz Hneg.
  assert (Hstored : stored i j frag = pac_values_fragments i j frag).
  { unfold stored, st.
    rewrite significant_pac_values_fragments_at, in_range_ltb by assumption.
    unfold st in Hz. rewrite z_scores_fragments_at, in_range_ltb in Hz by assumption.
    rewrite Hz. reflexivity. }
  assert (Hnp : fgt (stored i j frag) (Fin 0) = false) by (rewrite Hstored; exact Hneg).
  pose proof (same_positive_part_zeroed stored i j frag Hnp) as Hsame.
  destruct (not_positive_likelihood G_nChannels G_nFragments kde stored i j frag Hnp)
    as (Hraw & Hlik & Hpost).
  split; [exact Hstored|].
  split; [apply population_same; exact Hsame|].
  split; [intro i'; apply counts_same; exact Hsame|].
  split; [exact Hraw|].
  split; [apply zero_or_nan_not_positive; exact Hlik|].
  split; [apply zero_or_nan_not_positive; exact Hpost|].
  intros i' x'. apply P_i_given_x_mean_same. exact Hsame.
Qed.

End NonPositiveStrength.

(** ** The pipeline on the examples *)

Section ClosedFacts.

Import Examples.

(** Run on their own on an array of zeros, which the density fit refuses,
    the prior and posterior cells yield [nan]; the reported matrix, whose
    counters test [posterior > 0], holds zeros. *)
Lemma reported_matrix_without_significant_example :
  entries 2 (frag_of (P_i_given_x_fragments 2 2 toy_density np_zeros3) 0)
  = [[NaN; NaN]; [NaN; NaN]] /\
  entries 2 (P_i_given_x_mean 2 2 toy_density np_zeros3) = [[Fin 0; Fin 0]; [Fin 0; Fin 0]].
Proof. split; vm_compute; reflexivity. Qed.

(** C1, as the specification states it, fails.  In fragment 0 of the example
    the raw likelihood is [[1/2, 1/4], [0, 1/2]]; the notebook yields
    [[1, 1/3], [0, 2/3]], each column summing to one, where dividing each row
    by its sum would yield [[2/3, 1/3], [0, 1]]. *)
Lemma likelihood_row_normalization_counterexample :
  entries 2 (frag_of (P_x_given_i_raw 2 2 toy_density stored) 0)
  = [[Fin (1 # 2); Fin (1 # 4)]; [Fin 0; Fin (1 # 2)]] /\
  entries 2 (frag_of (P_x_given_i 2 2 toy_density stored) 0)
  = [[Fin 1; Fin (1 # 3)]; [Fin 0; Fin (2 # 3)]] /\
  entries 2 (row_normalized 2 (frag_of (P_x_given_i_raw 2 2 toy_density stored) 0))
  = [[Fin (2 # 3); Fin (1 # 3)]; [Fin 0; Fin 1]] /\
  ~ (forall i x, i < 2 -> x < 2 ->
       P_x_given_i 2 2 toy_density stored i x 0
       ~= row_normalized 2 (frag_of (P_x_given_i_raw 2 2 toy_density stored) 0) i x).
Proof.
  split; [vm_compute; reflexivity|].
  split; [vm_compute; reflexivity|].
  split; [vm_compute; reflexivity|].
  intro H. specialize (H 0 0 ltac:(lia) ltac:(lia)).
  vm_compute in H. discriminate H.
Qed.

(** The whole run on the example: the threshold 1.96, the filter, the fit
    and the reported matrix. *)
Lemma BPAC_OneSubject_example :
  exists m,
    BPAC_OneSubject sqrt_exact ppf_table toy_fit 2 2 (5 # 100) strengths surrogates = Ok m /\
    entries 2 m = [[Fin 1; Fin (1 # 2)]; [Fin 0; Fin (1 # 2)]].
Proof.
  eexists. split; [vm_compute; reflexivity|]. vm_compute. reflexivity.
Qed.

End ClosedFacts.

(** ** The theorems at the examples *)

Section Witnesses.

Import Examples.

Local Abbreviation threshold := (Fin (196 # 100)).
Local Abbreviation filtered_example :=
  (significance_filter sqrt_exact 2 2 threshold strengths surrogates).

Lemma likelihood_normalized_by_column_witness :
  let column_sum :=
    np_sum (map (fun i' => P_x_given_i_raw 2 2 toy_density stored i' 1 0) (range 2)) in
  P_x_given_i 2 2 toy_density stored 0 1 0
  = (if fneb column_sum (Fin 0)
     then fdiv (P_x_given_i_raw 2 2 toy_density stored 0 1 0) column_sum
     else Fin 0) /\
  (feqb column_sum (Fin 0) = true ->
   forall i', P_x_given_i 2 2 toy_density stored i' 1 0 = Fin 0).
Proof.
  apply (@likelihood_normalized_by_column 2 2 toy_density stored 0 1 0); lia.
Defined.

Lemma significance_decision_witness :
  exists zThreshold,
    G_zThreshold_Bonferroni ppf_table 2 (5 # 100) = Ok zThreshold /\
    zThreshold = ppf_table (Fin (1 - (5 # 100) / inject_Z (Z.of_nat 2))%Q) /\
    let strength := strengths 1 0 1 in
    let surrogates0 := surrogates 1 0 1 in
    let z := z_scores_fragments
               (significance_filter sqrt_exact 2 2 zThreshold strengths surrogates) 1 0 1 in
    z = (if feqb (np_std sqrt_exact surrogates0) (Fin 0) then Fin 0
         else fdiv (fsub strength (np_mean surrogates0)) (np_std sqrt_exact surrogates0)) /\
    significant_pac_values_fragments
      (significance_filter sqrt_exact 2 2 zThreshold strengths surrogates) 1 0 1
    = (if fgt (fabs z) zThreshold then strength else Fin 0).
Proof.
  apply (@significance_decision sqrt_exact ppf_table 2 2 (5 # 100) strengths surrogates
                                1 0 1); lia.
Defined.

Lemma significant_count_antitone_witness :
  (forall i j frag, i < 2 -> j < 2 -> frag < 2 ->
     exceeds (z_scores_fragments
                (significance_filter sqrt_exact 2 2 (Fin 4) strengths surrogates) i j frag)
             (Fin 4) = true ->
     exceeds (z_scores_fragments filtered_example i j frag) threshold = true /\
     significant_pac_values_fragments filtered_example i j frag
     = significant_pac_values_fragments
         (significance_filter sqrt_exact 2 2 (Fin 4) strengths surrogates) i j frag) /\
  count_significant sqrt_exact 2 2 (Fin 4) strengths surrogates
  <= count_significant sqrt_exact 2 2 threshold strengths surrogates.
Proof.
  apply (@significant_count_antitone sqrt_exact 2 2 strengths surrogates threshold (Fin 4)).
  reflexivity.
Defined.

Lemma reported_matrix_in_unit_interval_witness :
  (forall i x, exists q,
      P_i_given_x_mean 2 2 toy_density stored i x = Fin q /\ (0 <= q <= 1)%Q) /\
  (forall x frag, frag < 2 ->
     feqb (P_x 2 2 toy_density stored x frag) (Fin 0) = true ->
     forall i, P_i_given_x_fragments 2 2 toy_density stored i x frag = Fin 0).
Proof.
  apply (@reported_matrix_in_unit_interval 2 2 toy_density stored). lia.
Defined.

Lemma posterior_column_sums_to_one_witness :
  P_x 2 2 toy_density stored 1 0
  = np_sum (map (fun i => fmul (P_i 2 2 stored i) (P_x_given_i 2 2 toy_density stored i 1 0))
                (range 2)) /\
  (forall i, P_i_given_x_fragments 2 2 toy_density stored i 1 0
             = fdiv (fmul (P_x_given_i 2 2 toy_density stored i 1 0) (P_i 2 2 stored i))
                    (P_x 2 2 toy_density stored 1 0)) /\
  np_sum (map (fun i => P_i_given_x_fragments 2 2 toy_density stored i 1 0) (range 2))
  ~= Fin 1.
Proof.
  apply (@posterior_column_sums_to_one 2 2 toy_density stored 1 0).
  - lia.
  - vm_compute. reflexivity.
Defined.

Lemma reported_is_prevalence_witness :
  P_i_given_x_mean 2 2 toy_density stored 0 1
  ~= Fin (inject_Z (Z.of_nat
            (length (filter (fun frag =>
                               fgt (P_i_given_x_fragments 2 2 toy_density stored 0 1 frag)
                                   (Fin 0))
                            (range 2))))
          / inject_Z (Z.of_nat 2)) /\
  ((forall v, finite_nonneg (toy_density v)) ->
   (exists i' j' frag', i' < 2 /\ j' < 2 /\ frag' < 2 /\
                        fgt (stored i' j' frag') (Fin 0) = true) ->
   filter (fun frag => fgt (P_i_given_x_fragments 2 2 toy_density stored 0 1 frag) (Fin 0))
          (range 2)
   = filter (fun frag => fneb (P_i_given_x_fragments 2 2 toy_density stored 0 1 frag) (Fin 0))
            (range 2)) /\
  (exists n F density stored0 i0 x0,
      0 < F /\
      ~ (P_i_given_x_mean n F density stored0 i0 x0
         ~= mean_of_posteriors n F density stored0 i0 x0)).
Proof.
  apply (@reported_is_prevalence 2 2 toy_density stored 0 1). lia.
Defined.

Lemma nonpositive_strength_is_not_significant_downstream_witness :
  let stored0 := significant_pac_values_fragments filtered_example in
  let zeroed := set3 stored0 1 0 1 (Fin 0) in
  stored0 1 0 1 = strengths 1 0 1 /\
  significant_pac_values_flat_fragments 2 2 stored0
  = significant_pac_values_flat_fragments 2 2 zeroed /\
  (forall i', significant_pac_counts_by_destination 2 2 stored0 i'
              = significant_pac_counts_by_destination 2 2 zeroed i') /\
  P_x_given_i_raw 2 2 toy_density stored0 1 0 1 = Fin 0 /\
  fgt (P_x_given_i 2 2 toy_density stored0 1 0 1) (Fin 0) = false /\
  fgt (P_i_given_x_fragments 2 2 toy_density stored0 1 0 1) (Fin 0) = false /\
  (forall i' x', P_i_given_x_mean 2 2 toy_density stored0 i' x'
                 = P_i_given_x_mean 2 2 toy_density zeroed i' x').
Proof.
  apply (@nonpositive_strength_is_not_significant_downstream
           sqrt_exact 2 2 toy_density strengths surrogates threshold 1 0 1).
  - lia.
  - lia.
  - lia.
  - vm_compute. reflexivity.
  - vm_compute. reflexivity.
Defined.

Lemma stored_finite_nonneg (i j frag : nat) :
  i < 2 -> j < 2 -> frag < 2 -> finite_nonneg (stored i j frag).
Proof.
  intros Hi Hj Hf.
  destruct i as [|[|i]]; [| |lia];
    (destruct j as [|[|j]]; [| |lia]);
    (destruct frag as [|[|frag]]; [| |lia]);
    (eexists; split; [reflexivity|]; unfold Qle; simpl; lia).
Qed.

Lemma density_fit_pools_significant_strengths_witness :
  let population := population_as_specified 2 2 stored in
  map fabs (significant_pac_values_flat_fragments 2 2 stored) = population /\
  (forall v, In v population <->
     exists i j frag, i < 2 /\ j < 2 /\ frag < 2 /\
                      fneb (stored i j frag) (Fin 0) = true /\
                      v = fabs (fmul (stored i j frag) (Fin 100000))) /\
  kde_fragments toy_fit 2 2 stored = gaussian_kde toy_fit population /\
  (population = [] -> kde_fragments toy_fit 2 2 stored = Raise ValueError).
Proof.
  apply (@density_fit_pools_significant_strengths 2 2 toy_fit stored).
  exact stored_finite_nonneg.
Defined.


End Witnesses.

(** * Further facts: what the cells compute beyond the claims *)

(** ** Sums of finite, non-negative floats *)

Section SumFacts.

Local Open Scope Q_scope.

Lemma fold_Qplus_member_le (qs : list Q) (q : Q) :
  (forall r, In r qs -> 0 <= r) -> In q qs -> q <= fold_left Qplus qs 0.
Proof.
  induction qs as [|b qs IH]; intros Hnn Hin; [contradiction|].
  simpl. rewrite fold_Qplus_shift.
  assert (Hb : 0 <= b) by (apply Hnn; left; reflexivity).
  assert (Hrest : 0 <= fold_left Qplus qs 0)
    by (apply fold_Qplus_nonneg; intros; apply Hnn; right; assumption).
  destruct Hin as [E|Hin].
  - rewrite <- E. lra.
  - assert (Hq : q <= fold_left Qplus qs 0)
      by (apply IH; [intros; apply Hnn; right; assumption|assumption]).
    lra.
Qed.

Lemma fold_Qplus_le_compat (A : Type) (f g : A -> Q) (l : list A) :
  (forall x, In x l -> f x <= g x) ->
  fold_left Qplus (map f l) 0 <= fold_left Qplus (map g l) 0.
Proof.
  induction l as [|x l IH]; intro H; simpl.
  - apply Qle_refl.
  - rewrite fold_Qplus_shift, (fold_Qplus_shift (map g l)).
    assert (f x <= g x) by (apply H; left; reflexivity).
    assert (fold_left Qplus (map f l) 0 <= fold_left Qplus (map g l) 0)
      by (apply IH; intros; apply H; right; assumption).
    lra.
Qed.

Lemma finite_nonneg_repr (x : npfloat) :
  finite_nonneg x -> x = Fin (to_Q x) /\ 0 <= to_Q x.
Proof. intros (q & -> & Hq). split; [reflexivity|exact Hq]. Qed.

Lemma np_sum_of_finite (l : list npfloat) :
  (forall y, In y l -> finite_nonneg y) ->
  np_sum l = Fin (fold_left Qplus (map to_Q l) 0).
Proof.
  intro H.
  assert (E : l = map Fin (map to_Q l)).
  { induction l as [|y l IH]; [reflexivity|]. simpl.
    rewrite <- IH by (intros; apply H; right; assumption).
    f_equal. apply finite_nonneg_repr. apply H. left; reflexivity. }
  unfold np_sum. rewrite E at 1. apply fold_fadd_map_Fin.
Qed.

Lemma np_sum_finite_nonneg (l : list npfloat) :
  (forall y, In y l -> finite_nonneg y) -> finite_nonneg (np_sum l).
Proof.
  intro H. unfold np_sum. apply fold_fadd_nonneg; [apply finite_nonneg_zero|exact H].
Qed.

(** A term of a sum of non-negative terms is at most the sum. *)
Lemma np_sum_member_le (l : list npfloat) (y : npfloat) :
  (forall z, In z l -> finite_nonneg z) -> In y l -> to_Q y <= to_Q (np_sum l).
Proof.
  intros H Hin. rewrite (np_sum_of_finite l H). simpl.
  apply fold_Qplus_member_le.
  - intros r Hr. apply in_map_iff in Hr. destruct Hr as (z & <- & Hz).
    apply finite_nonneg_repr. apply H. exact Hz.
  - apply in_map. exact Hin.
Qed.

Lemma positive_of_nonneg_nonzero (y : Q) : 0 <= y -> ~ y == 0 -> 0 < y.
Proof.
  intros Hy Hne. destruct (Qlt_le_dec 0 y) as [Hlt|Hle]; [exact Hlt|].
  exfalso. apply Hne. lra.
Qed.

(** A guarded quotient of a part by its whole is in [[0, 1]]. *)
Lemma guarded_quotient_unit (a s : npfloat) :
  finite_nonneg a -> finite_nonneg s -> to_Q a <= to_Q s ->
  unit_interval (if fneb s (Fin 0) then fdiv a s else Fin 0).
Proof.
  intros (x & -> & Hx) (y & -> & Hy) Hle. simpl in Hle. unfold fneb. simpl.
  destruct (Qeq_bool y 0) eqn:E; simpl.
  - exists 0. split; [reflexivity|]. split; lra.
  - exists (x / y). split; [reflexivity|].
    apply Qeq_bool_false in E. pose proof (positive_of_nonneg_nonzero Hy E) as Hpos.
    split.
    + apply Qle_shift_div_l; [exact Hpos|]. lra.
    + apply Qle_shift_div_r; [exact Hpos|]. lra.
Qed.

(** A guarded quotient of a positive part by its whole is positive. *)
Lemma guarded_quotient_positive (a s : npfloat) :
  (exists r, a = Fin r /\ 0 < r) -> finite_nonneg s -> to_Q a <= to_Q s ->
  exists q, (if fneb s (Fin 0) then fdiv a s else Fin 0) = Fin q /\ 0 < q.
Proof.
  intros (x & -> & Hx) (y & -> & Hy) Hle. simpl in Hle. unfold fneb. simpl.
  assert (Hpos : 0 < y) by lra.
  assert (E : Qeq_bool y 0 = false) by (apply Qeq_bool_false; lra).
  rewrite E. simpl. exists (x / y). split; [reflexivity|].
  apply Qlt_shift_div_l; [exact Hpos|]. lra.
Qed.

Lemma unit_interval_zero : unit_interval (Fin 0).
Proof. exists 0. split; [reflexivity|]. split; lra. Qed.

Lemma unit_interval_nonneg (x : npfloat) : unit_interval x -> finite_nonneg x.
Proof. intros (q & -> & Hq & _). exists q. split; [reflexivity|exact Hq]. Qed.

End SumFacts.

#[export] Hint Resolve unit_interval_zero np_sum_finite_nonneg : npfloat.

(** ** The normalised likelihood *)

Section LikelihoodColumnFacts.

Local Open Scope Q_scope.

Variables G_nChannels G_nFragments : nat.
Variable kde : npfloat -> npfloat.
Variable significant : array3.

Local Abbreviation raw := (P_x_given_i_raw G_nChannels G_nFragments kde significant).
Local Abbreviation lik := (P_x_given_i G_nChannels G_nFragments kde significant).

(** In the exact arithmetic of the model, the quotients of a column by its
    sum add up to one when that sum is a finite number other than zero. *)
Lemma column_quotients_add_up (x frag : nat) :
  (frag < G_nFragments)%nat ->
  let column_sum := np_sum (map (fun i => raw i x frag) (range G_nChannels)) in
  is_finite column_sum = true ->
  fneb column_sum (Fin 0) = true ->
  np_sum (map (fun i => lik i x frag) (range G_nChannels)) ~= Fin 1.
Proof.
  intros Hf column_sum Hfin Hne. apply Nat.ltb_lt in Hf.
  destruct column_sum as [s| | |] eqn:Es; try discriminate. clear Hfin.
  unfold fneb in Hne. simpl in Hne. apply negb_true_iff in Hne.
  assert (Hs : ~ s == 0) by (apply Qeq_bool_false; exact Hne).
  assert (Hraw : forall i, In i (range G_nChannels) ->
                           raw i x frag = Fin (to_Q (raw i x frag))).
  { intros i Hi. unfold column_sum, np_sum in Es.
    destruct (fold_fadd_finite _ _ Es) as (qs & Hmap & _).
    assert (Hin : In (raw i x frag) (map Fin qs)).
    { rewrite <- Hmap. apply in_map_iff. exists i. split; [reflexivity|exact Hi]. }
    apply in_map_iff in Hin. destruct Hin as (q & <- & _). reflexivity. }
  assert (Hs_sum : s = fold_left Qplus
                         (map (fun i => to_Q (raw i x frag)) (range G_nChannels)) 0).
  { assert (E : Fin s = Fin (fold_left Qplus
                                (map (fun i => to_Q (raw i x frag)) (range G_nChannels)) 0)).
    { rewrite <- Es. unfold column_sum, np_sum. rewrite <- fold_fadd_map_Fin, map_map.
      f_equal. apply map_ext_in. exact Hraw. }
    injection E as E. exact E. }
  unfold np_sum.
  rewrite (map_ext_in (fun i => lik i x frag)
             (fun i => Fin (to_Q (raw i x frag) / s))).
  - rewrite <- (map_map (fun i => to_Q (raw i x frag) / s) Fin).
    rewrite fold_fadd_map_Fin. simpl.
    rewrite <- (map_map (fun i => to_Q (raw i x frag)) (fun q => q / s)).
    rewrite fold_Qplus_div by exact Hs.
    rewrite <- Hs_sum. field. exact Hs.
  - intros i Hi. rewrite P_x_given_i_at, Hf. unfold column_normalized. cbv zeta.
    fold column_sum. rewrite Es. unfold fneb. simpl. rewrite Hne. simpl.
    rewrite (Hraw i Hi). simpl. rewrite Hne. reflexivity.
Qed.

(** When the raw likelihoods of a column of a fragment are finite, not
    negative and at most [density_ceiling], so that their sum does not
    overflow, and the sum is not zero, the normalised column sums to one over
    the destinations up to the rounding of doubles: the quotients by the
    column sum add up to one in exact arithmetic. *)
Theorem normalized_likelihood_column_sums_to_one (x frag : nat) :
  (frag < G_nFragments)%nat ->
  (forall i, (i < G_nChannels)%nat -> moderate (raw i x frag)) ->
  fneb (np_sum (map (fun i => raw i x frag) (range G_nChannels))) (Fin 0) = true ->
  np_sum (map (fun i => lik i x frag) (range G_nChannels)) ~= Fin 1.
Proof.
  intros Hf Hmod Hne. apply column_quotients_add_up; [exact Hf| |exact Hne].
  assert (Hnn : finite_nonneg (np_sum (map (fun i => raw i x frag) (range G_nChannels)))).
  { apply np_sum_finite_nonneg. intros y Hy. apply in_map_iff in Hy.
    destruct Hy as (i & <- & Hi). apply in_range_iff in Hi.
    destruct (Hmod i Hi) as (q & E & Hq & _). exists q. split; assumption. }
  destruct Hnn as (s & -> & _). reflexivity.
Qed.

(** The counter of the normalisation loop holds, for each pair, the number
    of fragments in which its normalised likelihood is positive. *)
Lemma P_x_given_i_significant_counts_at (i x : nat) :
  exists q,
    P_x_given_i_significant_counts G_nChannels G_nFragments kde significant i x = Fin q /\
    q == inject_Z (Z.of_nat (length (filter (fun frag => fgt (lik i x frag) (Fin 0))
                                            (range G_nFragments)))).
Proof.
  unfold P_x_given_i_significant_counts, normalize_loop.
  rewrite (proj2 (@normalize_loop_invariant G_nChannels G_nFragments kde significant G_nFragments)).
  destruct (counting_loop
              (fun frag => fgt (column_normalized G_nChannels G_nFragments kde significant
                                                  i x frag) (Fin 0)) G_nFragments)
    as (q & E & Hq).
  exists q. split; [exact E|]. rewrite Hq.
  rewrite (filter_ext_in
             (fun frag => fgt (column_normalized G_nChannels G_nFragments kde significant
                                                 i x frag) (Fin 0))
             (fun frag => fgt (lik i x frag) (Fin 0))).
  - reflexivity.
  - intros frag Hin. apply in_range_iff in Hin. apply Nat.ltb_lt in Hin.
    rewrite P_x_given_i_at, Hin. reflexivity.
Qed.

Lemma P_x_given_i_mean_at (i x : nat) :
  (0 < G_nFragments)%nat ->
  exists q,
    P_x_given_i_mean G_nChannels G_nFragments kde significant i x = Fin q /\
    q == inject_Z (Z.of_nat (length (filter (fun frag => fgt (lik i x frag) (Fin 0))
                                            (range G_nFragments))))
         / inject_Z (Z.of_nat G_nFragments) /\
    0 <= q <= 1.
Proof.
  intro HF. unfold P_x_given_i_mean.
  destruct (P_x_given_i_significant_counts_at i x) as (q & E & Hq).
  rewrite E. unfold of_nat. simpl.
  destruct (Qeq_bool (inject_Z (Z.of_nat G_nFragments)) 0) eqn:Ez.
  - apply inject_nat_eq_zero in Ez. lia.
  - eexists. split; [reflexivity|].
    pose proof (filter_length_le (fun frag => fgt (lik i x frag) (Fin 0))
                                 (range G_nFragments)) as Hle.
    unfold range in Hle at 2. rewrite length_seq in Hle.
    pose proof (inject_nat_pos HF) as HFpos.
    split; [rewrite Hq; reflexivity|]. rewrite Hq. split.
    + apply Qle_shift_div_l; [exact HFpos|]. rewrite Qmult_0_l. apply inject_nat_nonneg.
    + apply Qle_shift_div_r; [exact HFpos|]. rewrite Qmult_1_l.
      apply inject_nat_le. exact Hle.
Qed.

(** The auxiliary matrix [P_x_given_i_mean]: with [F > 0] fragments each
    entry is the fraction of the fragments in which the pair has a positive
    normalised likelihood, a finite number in [[0, 1]] whatever the stored
    values and the density. *)
Theorem P_x_given_i_mean_is_support (i x : nat) :
  (0 < G_nFragments)%nat ->
  exists q,
    P_x_given_i_mean G_nChannels G_nFragments kde significant i x = Fin q /\
    q == inject_Z (Z.of_nat (length (filter (fun frag => fgt (lik i x frag) (Fin 0))
                                            (range G_nFragments))))
         / inject_Z (Z.of_nat G_nFragments) /\
    0 <= q <= 1.
Proof.
  intro HF. destruct (P_x_given_i_mean_at i x HF) as (q & E & Hq & Hbounds).
  exists q. split; [exact E|]. split; [exact Hq|exact Hbounds].
Qed.

End LikelihoodColumnFacts.

(** ** Every stage yields probabilities *)

Section ProbabilityFacts.

Local Open Scope Q_scope.

Variables G_nChannels G_nFragments : nat.
Variable kde : npfloat -> npfloat.
Variable significant : array3.

Hypothesis density_nonneg :
  density_nonneg_where_evaluated G_nChannels G_nFragments kde significant.

Local Abbreviation prior := (P_i G_nChannels G_nFragments significant).
Local Abbreviation raw := (P_x_given_i_raw G_nChannels G_nFragments kde significant).
Local Abbreviation lik := (P_x_given_i G_nChannels G_nFragments kde significant).
Local Abbreviation evidence := (P_x G_nChannels G_nFragments kde significant).
Local Abbreviation posterior :=
  (P_i_given_x_fragments G_nChannels G_nFragments kde significant).
Local Abbreviation column_sum x frag :=
  (np_sum (map (fun i => raw i x%nat frag%nat) (range G_nChannels))).

Lemma raw_finite_nonneg (i j frag : nat) : finite_nonneg (raw i j frag).
Proof.
  rewrite P_x_given_i_raw_at.
  destruct (Nat.ltb_spec i G_nChannels); [|auto with npfloat].
  destruct (Nat.ltb_spec j G_nChannels); [|auto with npfloat].
  destruct (Nat.ltb_spec frag G_nFragments); [|auto with npfloat].
  simpl. destruct (fgt (significant i j frag) (Fin 0)) eqn:E; [|auto with npfloat].
  apply density_nonneg; assumption.
Qed.

Lemma raw_out_of_range (i j frag : nat) : (G_nChannels <= i)%nat -> raw i j frag = Fin 0.
Proof.
  intro Hi. rewrite P_x_given_i_raw_at.
  replace (i <? G_nChannels)%nat with false by (symmetry; apply Nat.ltb_ge; exact Hi).
  reflexivity.
Qed.

Lemma column_sum_finite_nonneg (x frag : nat) : finite_nonneg (column_sum x frag).
Proof.
  apply np_sum_finite_nonneg. intros y Hy. apply in_map_iff in Hy.
  destruct Hy as (i & <- & _). apply raw_finite_nonneg.
Qed.

Lemma raw_le_column_sum (i x frag : nat) :
  to_Q (raw i x frag) <= to_Q (column_sum x frag).
Proof.
  destruct (Nat.ltb_spec i G_nChannels) as [Hi|Hi].
  - apply np_sum_member_le.
    + intros y Hy. apply in_map_iff in Hy. destruct Hy as (i' & <- & _).
      apply raw_finite_nonneg.
    + apply in_map_iff. exists i. split; [reflexivity|apply in_range_iff; exact Hi].
  - rewrite (raw_out_of_range x frag Hi). simpl.
    apply (finite_nonneg_repr (column_sum_finite_nonneg x frag)).
Qed.

(** The normalised likelihood is in [[0, 1]]. *)
Lemma likelihood_unit (i x frag : nat) : unit_interval (lik i x frag).
Proof.
  rewrite P_x_given_i_at. destruct (frag <? G_nFragments)%nat eqn:Ef.
  - unfold column_normalized. cbv zeta.
    apply guarded_quotient_unit;
      [apply raw_finite_nonneg|apply column_sum_finite_nonneg|apply raw_le_column_sum].
  - rewrite P_x_given_i_raw_at, Ef, andb_false_r. apply unit_interval_zero.
Qed.

Lemma likelihood_finite_nonneg (i x frag : nat) : finite_nonneg (lik i x frag).
Proof. apply unit_interval_nonneg, likelihood_unit. Qed.

Lemma likelihood_out_of_range (i x frag : nat) :
  (G_nChannels <= i)%nat -> to_Q (lik i x frag) == 0.
Proof.
  intro Hi. rewrite P_x_given_i_at. destruct (frag <? G_nFragments)%nat.
  - unfold column_normalized. cbv zeta. rewrite (raw_out_of_range x frag Hi).
    destruct (column_sum_finite_nonneg x frag) as (s & -> & Hs).
    unfold fneb. simpl. destruct (Qeq_bool s 0) eqn:E; simpl; [reflexivity|].
    apply Qeq_bool_false in E. field. exact E.
  - rewrite (raw_out_of_range x frag Hi). reflexivity.
Qed.

Section WithSignificant.

Hypothesis some_significant :
  exists i j frag, (i < G_nChannels)%nat /\ (j < G_nChannels)%nat /\
                   (frag < G_nFragments)%nat /\ fgt (significant i j frag) (Fin 0) = true.

Lemma some_significant_counted :
  (0 < n_significant G_nChannels G_nFragments significant)%nat.
Proof. apply n_sig_positive. exact some_significant. Qed.

(** The prior is in [[0, 1]], and zero exactly where nothing is counted. *)
Lemma prior_unit (i : nat) :
  unit_interval (prior i) /\
  (prior i ~= Fin 0 <->
   n_significant_to G_nChannels G_nFragments significant i = 0%nat).
Proof.
  pose proof some_significant_counted as n_sig_pos.
  destruct (@P_i_value G_nChannels G_nFragments significant i n_sig_pos) as [E Hq].
  pose proof (@n_sig_to_le G_nChannels G_nFragments significant i) as Hle.
  pose proof (inject_nat_pos n_sig_pos) as Hpos.
  split.
  - eexists. split; [exact E|]. rewrite Hq. split.
    + apply Qle_shift_div_l; [exact Hpos|]. rewrite Qmult_0_l. apply inject_nat_nonneg.
    + apply Qle_shift_div_r; [exact Hpos|]. rewrite Qmult_1_l.
      apply inject_nat_le. exact Hle.
  - rewrite E. simpl. rewrite Hq. split.
    + intro Hz.
      set (N := inject_Z (Z.of_nat (n_significant_to G_nChannels G_nFragments
                                                     significant i))) in *.
      set (S := inject_Z (Z.of_nat (n_significant G_nChannels G_nFragments
                                                  significant))) in *.
      assert (Hn : N == 0).
      { assert (HN : N == (N / S) * S) by (field; lra).
        rewrite HN, Hz. ring. }
      unfold N, Qeq in Hn. simpl in Hn. lia.
    + intros ->. simpl. unfold Qdiv. ring.
Qed.

Lemma prior_finite_nonneg (i : nat) : finite_nonneg (prior i).
Proof. apply unit_interval_nonneg, prior_unit. Qed.

Lemma term_finite_nonneg (i x frag : nat) :
  finite_nonneg (fmul (prior i) (lik i x frag)).
Proof. apply fmul_nonneg; [apply prior_finite_nonneg|apply likelihood_finite_nonneg]. Qed.

Lemma evidence_finite_nonneg (x frag : nat) : finite_nonneg (evidence x frag).
Proof.
  rewrite P_x_at. destruct (frag <? G_nFragments)%nat; [|auto with npfloat].
  apply np_sum_finite_nonneg. intros y Hy. apply in_map_iff in Hy.
  destruct Hy as (i & <- & _). apply term_finite_nonneg.
Qed.

Lemma prior_total : fold_left Qplus (map (fun i => to_Q (prior i)) (range G_nChannels)) 0 == 1.
Proof.
  pose proof (proj2 (@P_i_sums_to_one G_nChannels G_nFragments significant some_significant))
    as Hsum.
  rewrite np_sum_of_finite in Hsum.
  - simpl in Hsum. rewrite map_map in Hsum. exact Hsum.
  - intros y Hy. apply in_map_iff in Hy. destruct Hy as (i & <- & _).
    apply prior_finite_nonneg.
Qed.

(** The evidence is in [[0, 1]]: a mean of likelihoods weighted by the prior. *)
Lemma evidence_unit (x frag : nat) : unit_interval (evidence x frag).
Proof.
  rewrite P_x_at. destruct (frag <? G_nFragments)%nat; [|apply unit_interval_zero].
  rewrite np_sum_of_finite.
  - eexists. split; [reflexivity|]. rewrite map_map. split.
    + apply fold_Qplus_nonneg. intros q Hq. apply in_map_iff in Hq.
      destruct Hq as (i & <- & _). apply (finite_nonneg_repr (term_finite_nonneg i x frag)).
    + rewrite <- prior_total. apply fold_Qplus_le_compat. intros i _.
      destruct (prior_finite_nonneg i) as (a & -> & Ha).
      destruct (likelihood_unit i x frag) as (l & -> & Hl0 & Hl1).
      simpl. nra.
  - intros y Hy. apply in_map_iff in Hy. destruct Hy as (i & <- & _).
    apply term_finite_nonneg.
Qed.

Lemma numerator_le_evidence (i x frag : nat) :
  (frag < G_nFragments)%nat ->
  to_Q (fmul (lik i x frag) (prior i)) <= to_Q (evidence x frag).
Proof.
  intro Hf. apply Nat.ltb_lt in Hf.
  assert (Hcomm : to_Q (fmul (lik i x frag) (prior i))
                  == to_Q (fmul (prior i) (lik i x frag))).
  { destruct (prior_finite_nonneg i) as (a & -> & _).
    destruct (likelihood_finite_nonneg i x frag) as (l & -> & _). simpl. ring. }
  rewrite Hcomm.
  destruct (Nat.ltb_spec i G_nChannels) as [Hi|Hi].
  - rewrite P_x_at, Hf. apply np_sum_member_le.
    + intros y Hy. apply in_map_iff in Hy. destruct Hy as (i' & <- & _).
      apply term_finite_nonneg.
    + apply in_map_iff. exists i. split; [reflexivity|apply in_range_iff; exact Hi].
  - pose proof (likelihood_out_of_range x frag Hi) as Hz.
    destruct (prior_finite_nonneg i) as (a & -> & _).
    destruct (likelihood_finite_nonneg i x frag) as (l & El & _).
    rewrite El in Hz |- *. simpl in Hz |- *. rewrite Hz, Qmult_0_r.
    apply (finite_nonneg_repr (evidence_finite_nonneg x frag)).
Qed.

(** The posterior is in [[0, 1]]: one term of the evidence over the evidence. *)
Lemma posterior_unit (i x frag : nat) : unit_interval (posterior i x frag).
Proof.
  rewrite P_i_given_x_fragments_at. destruct (frag <? G_nFragments)%nat eqn:Ef;
    [|apply unit_interval_zero].
  unfold bayes_quotient. cbv zeta.
  apply guarded_quotient_unit.
  - apply fmul_nonneg; [apply likelihood_finite_nonneg|apply prior_finite_nonneg].
  - apply evidence_finite_nonneg.
  - apply numerator_le_evidence. apply Nat.ltb_lt. exact Ef.
Qed.

(** With a density that is finite and not negative wherever it is
    evaluated, and at least one significant observation, every stage yields
    probabilities: each prior, each normalised likelihood, each evidence and
    each per-fragment posterior is a finite number in [[0, 1]]. *)
Theorem stages_yield_probabilities (i x frag : nat) :
  unit_interval (prior i) /\
  unit_interval (lik i x frag) /\
  unit_interval (evidence x frag) /\
  unit_interval (posterior i x frag).
Proof.
  split; [apply prior_unit|].
  split; [apply likelihood_unit|].
  split; [apply evidence_unit|apply posterior_unit].
Qed.

(** With at least one significant observation, the prior of a destination
    is zero exactly when no observation with that destination is
    significant in any fragment. *)
Theorem prior_zero_iff_never_significant (i : nat) :
  (i < G_nChannels)%nat ->
  (prior i ~= Fin 0 <->
   forall j frag, (j < G_nChannels)%nat -> (frag < G_nFragments)%nat ->
                  fgt (significant i j frag) (Fin 0) = false).
Proof.
  intro Hi. rewrite (proj2 (prior_unit i)). unfold n_significant_to.
  rewrite length_zero_iff_nil, filter_nil_iff. split.
  - intros H j frag Hj Hf.
    specialize (H (frag, i, j)). simpl in H. rewrite Nat.eqb_refl, andb_true_r in H.
    apply H. apply in_observations. auto.
  - intros H [[frag i'] j] Hin. apply in_observations in Hin. simpl.
    destruct (Nat.eqb_spec i i') as [<-|]; [|apply andb_false_r].
    rewrite andb_true_r. apply H; apply Hin.
Qed.

End WithSignificant.

End ProbabilityFacts.

(** ** The reported matrix depends on the significance pattern only *)

Section SignificancePrevalence.

Local Open Scope Q_scope.

Variables G_nChannels G_nFragments : nat.
Variable kde : npfloat -> npfloat.
Variable significant : array3.

Hypothesis density_moderate :
  density_moderate_where_evaluated G_nChannels G_nFragments kde significant.

Local Abbreviation prior := (P_i G_nChannels G_nFragments significant).
Local Abbreviation raw := (P_x_given_i_raw G_nChannels G_nFragments kde significant).
Local Abbreviation lik := (P_x_given_i G_nChannels G_nFragments kde significant).
Local Abbreviation evidence := (P_x G_nChannels G_nFragments kde significant).
Local Abbreviation posterior :=
  (P_i_given_x_fragments G_nChannels G_nFragments kde significant).

Lemma density_floor_positive : 0 < density_floor.
Proof. reflexivity. Qed.

Lemma density_positive :
  density_positive_where_evaluated G_nChannels G_nFragments kde significant.
Proof.
  intros i j frag Hi Hj Hf Hpos.
  destruct (density_moderate Hi Hj Hf Hpos) as (_ & q & E & Hq & _).
  exists q. split; [exact E|].
  apply (Qlt_le_trans _ _ _ density_floor_positive Hq).
Qed.

Lemma density_positive_nonneg :
  density_nonneg_where_evaluated G_nChannels G_nFragments kde significant.
Proof.
  intros i j frag Hi Hj Hf Hpos.
  destruct (density_positive Hi Hj Hf Hpos) as (q & E & Hq).
  exists q. split; [exact E|]. lra.
Qed.

Lemma n_sig_to_positive (i j frag : nat) :
  (i < G_nChannels)%nat -> (j < G_nChannels)%nat -> (frag < G_nFragments)%nat ->
  fgt (significant i j frag) (Fin 0) = true ->
  (0 < n_significant_to G_nChannels G_nFragments significant i)%nat.
Proof.
  intros Hi Hj Hf Hpos. unfold n_significant_to.
  assert (Hin : In (frag, i, j)
                   (filter (fun obs => stored_positive significant obs
                                       && (i =? destination obs)%nat)
                           (observations G_nChannels G_nFragments))).
  { apply filter_In. split; [apply in_observations; auto|].
    simpl. rewrite Hpos, Nat.eqb_refl. reflexivity. }
  destruct (filter _ _); [contradiction|simpl; lia].
Qed.

(** Where the stored value is positive, so are the normalised likelihood
    and the posterior. *)
Lemma positive_where_significant (i x frag : nat) :
  (i < G_nChannels)%nat -> (x < G_nChannels)%nat -> (frag < G_nFragments)%nat ->
  fgt (significant i x frag) (Fin 0) = true ->
  fgt (lik i x frag) (Fin 0) = true /\ fgt (posterior i x frag) (Fin 0) = true.
Proof.
  intros Hi Hx Hf Hpos.
  pose proof density_positive_nonneg as Hnn.
  assert (Hsome : exists i j frag, (i < G_nChannels)%nat /\ (j < G_nChannels)%nat /\
                                   (frag < G_nFragments)%nat /\
                                   fgt (significant i j frag) (Fin 0) = true)
    by (exists i, x, frag; auto).
  assert (Hraw : exists r, raw i x frag = Fin r /\ 0 < r).
  { rewrite P_x_given_i_raw_at, in_range_ltb, Hpos by assumption.
    apply density_positive; assumption. }
  assert (Hlik : exists l, lik i x frag = Fin l /\ 0 < l).
  { rewrite P_x_given_i_at. apply Nat.ltb_lt in Hf. rewrite Hf.
    unfold column_normalized. cbv zeta.
    apply guarded_quotient_positive;
      [exact Hraw
      |apply (column_sum_finite_nonneg Hnn)
      |apply (raw_le_column_sum Hnn)]. }
  assert (Hprior : exists a, prior i = Fin a /\ 0 < a).
  { pose proof (@n_sig_positive G_nChannels G_nFragments significant Hsome) as Hn.
    destruct (@P_i_value G_nChannels G_nFragments significant i Hn) as [E Hq].
    eexists. split; [exact E|]. rewrite Hq.
    apply Qlt_shift_div_l; [apply inject_nat_pos; exact Hn|].
    rewrite Qmult_0_l. apply inject_nat_pos.
    apply (n_sig_to_positive Hi Hx Hf Hpos). }
  split.
  - destruct Hlik as (l & -> & Hl). apply Qltb_true. exact Hl.
  - assert (Hpost : exists q, posterior i x frag = Fin q /\ 0 < q).
    { rewrite P_i_given_x_fragments_at.
      replace (frag <? G_nFragments)%nat with true by (symmetry; apply Nat.ltb_lt; exact Hf).
      unfold bayes_quotient. cbv zeta.
      apply guarded_quotient_positive.
      - destruct Hlik as (l & -> & Hl). destruct Hprior as (a & -> & Ha).
        exists (l * a). split; [reflexivity|]. nra.
      - apply (evidence_finite_nonneg Hnn Hsome).
      - apply (numerator_le_evidence Hnn Hsome). exact Hf. }
    destruct Hpost as (q & -> & Hq). apply Qltb_true. exact Hq.
Qed.

(** So the three tests agree on every observation. *)
Lemma positive_iff_significant (i x frag : nat) :
  (i < G_nChannels)%nat -> (x < G_nChannels)%nat -> (frag < G_nFragments)%nat ->
  fgt (lik i x frag) (Fin 0) = fgt (significant i x frag) (Fin 0) /\
  fgt (posterior i x frag) (Fin 0) = fgt (significant i x frag) (Fin 0).
Proof.
  intros Hi Hx Hf. destruct (fgt (significant i x frag) (Fin 0)) eqn:E.
  - apply positive_where_significant; assumption.
  - destruct (not_positive_likelihood G_nChannels G_nFragments kde significant i x frag E)
      as (_ & Hlik & Hpost).
    split; apply zero_or_nan_not_positive; assumption.
Qed.

(** With [F > 0] fragments, positive stored values that are finite and
    below [strength_ceiling], and a density that is finite and within
    [[density_floor, density_ceiling]] wherever it is evaluated (so that no
    sum overflows and no quotient or product underflows to zero), the
    reported posterior of a pair (destination [i], source [x]) is the
    fraction of the fragments in which the stored value of the pair is
    positive: it depends on which observations are significant and not on
    the strengths nor on the density.  The auxiliary matrix
    [P_x_given_i_mean] is the same number. *)
Theorem reported_is_fraction_of_significant_fragments (i x : nat) :
  (0 < G_nFragments)%nat -> (i < G_nChannels)%nat -> (x < G_nChannels)%nat ->
  let fraction :=
    Fin (inject_Z (Z.of_nat (n_fragments_significant G_nFragments significant i x))
         / inject_Z (Z.of_nat G_nFragments)) in
  P_i_given_x_mean G_nChannels G_nFragments kde significant i x ~= fraction /\
  P_x_given_i_mean G_nChannels G_nFragments kde significant i x ~= fraction.
Proof.
  intros HF Hi Hx fraction. unfold fraction, n_fragments_significant.
  assert (Hpost : filter (fun frag => fgt (posterior i x frag) (Fin 0)) (range G_nFragments)
                  = filter (fun frag => fgt (significant i x frag) (Fin 0))
                           (range G_nFragments)).
  { apply filter_ext_in. intros frag Hin. apply in_range_iff in Hin.
    apply positive_iff_significant; assumption. }
  assert (Hlik : filter (fun frag => fgt (lik i x frag) (Fin 0)) (range G_nFragments)
                 = filter (fun frag => fgt (significant i x frag) (Fin 0))
                          (range G_nFragments)).
  { apply filter_ext_in. intros frag Hin. apply in_range_iff in Hin.
    apply positive_iff_significant; assumption. }
  split.
  - destruct (@P_i_given_x_mean_at G_nChannels G_nFragments kde significant i x HF)
      as (q & E & Hq).
    rewrite E. simpl. rewrite Hq, Hpost. reflexivity.
  - destruct (@P_x_given_i_mean_at G_nChannels G_nFragments kde significant i x HF)
      as (q & E & Hq & _).
    rewrite E. simpl. rewrite Hq, Hlik. reflexivity.
Qed.

End SignificancePrevalence.

(** ** The displayed threshold *)

Section ThresholdFacts.

Local Open Scope Q_scope.

(** [np.where(m >= tau, m, 0)], whatever [tau] and [m] are: an entry is
    kept unchanged or replaced by zero, the result holds no [nan], and
    applying the threshold again changes nothing. *)
Theorem threshold_keeps_or_zeroes (tau : npfloat) (m : array2) (i j : nat) :
  (np_where_ge tau m i j = m i j \/ np_where_ge tau m i j = Fin 0) /\
  np_where_ge tau m i j <> NaN /\
  np_where_ge tau (np_where_ge tau m) i j = np_where_ge tau m i j.
Proof.
  unfold np_where_ge. destruct (fge (m i j) tau) eqn:E.
  - split; [left; reflexivity|]. split.
    + intro Hnan. rewrite Hnan in E. unfold fge in E. destruct tau; discriminate.
    + rewrite E. reflexivity.
  - split; [right; reflexivity|]. split; [discriminate|].
    destruct (fge (Fin 0) tau); reflexivity.
Qed.

Variables G_nChannels G_nFragments : nat.
Variable kde : npfloat -> npfloat.
Variable significant : array3.

Local Abbreviation posterior :=
  (P_i_given_x_fragments G_nChannels G_nFragments kde significant).

Lemma tenth_le_fraction (k F : nat) (q : Q) :
  (0 < F)%nat -> q == inject_Z (Z.of_nat k) / inject_Z (Z.of_nat F) ->
  Qle_bool (1 # 10) q = (F <=? 10 * k)%nat.
Proof.
  intros HF Hq.
  pose proof (inject_nat_pos HF) as HFpos.
  assert (Hk : inject_Z (Z.of_nat (10 * k)) == 10 * inject_Z (Z.of_nat k)).
  { rewrite Nat2Z.inj_mul, inject_Z_mult. reflexivity. }
  assert (Hmul : q * inject_Z (Z.of_nat F) == inject_Z (Z.of_nat k)).
  { rewrite Hq. field. lra. }
  destruct (Nat.leb_spec F (10 * k)) as [Hle|Hgt].
  - apply Qle_bool_iff. apply inject_nat_le in Hle. rewrite Hk in Hle.
    rewrite Hq. apply Qle_shift_div_l; [exact HFpos|]. lra.
  - destruct (Qle_bool (1 # 10) q) eqn:E; [|reflexivity].
    exfalso. apply Qle_bool_iff in E.
    assert (Hlt : inject_Z (Z.of_nat (10 * k)) < inject_Z (Z.of_nat F))
      by (rewrite <- Zlt_Qlt; lia).
    rewrite Hk in Hlt. nra.
Qed.

(** With [F > 0] fragments, the thresholded matrix keeps the entry of a
    pair exactly when the pair has a positive posterior in at least a tenth
    of the fragments, [F <= 10 k]; it zeroes the others.  With ten fragments
    or fewer it zeroes nothing. *)
Theorem thresholded_keeps_a_tenth (i x : nat) :
  (0 < G_nFragments)%nat ->
  let k := length (filter (fun frag => fgt (posterior i x frag) (Fin 0))
                          (range G_nFragments)) in
  P_i_given_x_thresholded G_nChannels G_nFragments kde significant i x
  ~= (if (G_nFragments <=? 10 * k)%nat
      then Fin (inject_Z (Z.of_nat k) / inject_Z (Z.of_nat G_nFragments))
      else Fin 0) /\
  ((G_nFragments <= 10)%nat ->
   P_i_given_x_thresholded G_nChannels G_nFragments kde significant i x
   ~= P_i_given_x_mean G_nChannels G_nFragments kde significant i x).
Proof.
  intros HF k.
  destruct (@P_i_given_x_mean_at G_nChannels G_nFragments kde significant i x HF)
    as (q & E & Hq).
  fold k in Hq.
  assert (Hkeep : P_i_given_x_thresholded G_nChannels G_nFragments kde significant i x
                  = if (G_nFragments <=? 10 * k)%nat then Fin q else Fin 0).
  { unfold P_i_given_x_thresholded, np_where_ge, fge. rewrite E. simpl.
    rewrite (@tenth_le_fraction k G_nFragments q HF Hq). reflexivity. }
  split.
  - rewrite Hkeep. destruct (G_nFragments <=? 10 * k)%nat; simpl; [exact Hq|reflexivity].
  - intro Hten. rewrite Hkeep, E.
    destruct (Nat.leb_spec G_nFragments (10 * k)) as [_|Hgt]; simpl; [reflexivity|].
    assert (Hk0 : k = 0%nat) by lia.
    rewrite Hq, Hk0. simpl. unfold Qdiv. ring.
Qed.

End ThresholdFacts.

(** ** Runs in which nothing is significant *)

Section NothingSignificant.

Variable np_sqrt : npfloat -> npfloat.
Variables G_nChannels G_nFragments : nat.
Variable scipy_kde_fit : list npfloat -> result (npfloat -> npfloat).
Variable pac_values_fragments : array3.
Variable surrogate_pac_values_fragments : nat -> nat -> nat -> list npfloat.

Local Abbreviation filtered zThreshold :=
  (significance_filter np_sqrt G_nChannels G_nFragments zThreshold
     pac_values_fragments surrogate_pac_values_fragments).

Local Abbreviation z_of i j frag :=
  (z_score np_sqrt (pac_values_fragments i%nat j%nat frag%nat)
     (surrogate_pac_values_fragments i%nat j%nat frag%nat)).

Lemma nothing_exceeds_stores_zeros (zThreshold : npfloat) :
  (forall i j frag, i < G_nChannels -> j < G_nChannels -> frag < G_nFragments ->
                    exceeds (z_of i j frag) zThreshold = false) ->
  forall i j frag, significant_pac_values_fragments (filtered zThreshold) i j frag = Fin 0.
Proof.
  intros H i j frag. rewrite significant_pac_values_fragments_at.
  destruct (Nat.ltb_spec i G_nChannels); [|reflexivity].
  destruct (Nat.ltb_spec j G_nChannels); [|reflexivity].
  destruct (Nat.ltb_spec frag G_nFragments); [|reflexivity].
  simpl. rewrite H by assumption. reflexivity.
Qed.

Lemma zeros_fail_the_fit (significant : array3) :
  (forall i j frag, significant i j frag = Fin 0) ->
  kde_fragments scipy_kde_fit G_nChannels G_nFragments significant = Raise ValueError /\
  forall i, P_i G_nChannels G_nFragments significant i = NaN.
Proof.
  intro Hz. split.
  - unfold kde_fragments, significant_pac_values_flat_fragments.
    replace (filter (fun v => fgt v (Fin 0))
                    (flatten3 G_nChannels G_nFragments significant))
      with (@nil npfloat); [reflexivity|].
    symmetry. apply filter_nil_iff. intros v Hv. apply in_flatten3 in Hv.
    destruct Hv as (i & j & frag & _ & _ & _ & <-). rewrite Hz. reflexivity.
  - apply P_i_nan_without_significant. intros i j frag _ _ _. rewrite Hz. reflexivity.
Qed.

(** Where the standard deviation that the model computes is zero for every
    observation and the threshold is not negative, every z-score is zero and
    nothing is stored. *)
Lemma zero_std_stores_nothing (zThreshold : npfloat) :
  fle (Fin 0) zThreshold = true ->
  (forall i j frag, i < G_nChannels -> j < G_nChannels -> frag < G_nFragments ->
     feqb (np_std np_sqrt (surrogate_pac_values_fragments i j frag)) (Fin 0) = true) ->
  (forall i j frag, z_scores_fragments (filtered zThreshold) i j frag = Fin 0) /\
  (forall i j frag,
      significant_pac_values_fragments (filtered zThreshold) i j frag = Fin 0) /\
  kde_fragments scipy_kde_fit G_nChannels G_nFragments
                (significant_pac_values_fragments (filtered zThreshold))
  = Raise ValueError.
Proof.
  intros Hthr Hstd.
  assert (Hz : forall i j frag, i < G_nChannels -> j < G_nChannels -> frag < G_nFragments ->
                                z_of i j frag = Fin 0).
  { intros i j frag Hi Hj Hf. unfold z_score. rewrite Hstd by assumption. reflexivity. }
  assert (Hnone : forall i j frag,
             i < G_nChannels -> j < G_nChannels -> frag < G_nFragments ->
             exceeds (z_of i j frag) zThreshold = false).
  { intros i j frag Hi Hj Hf. rewrite Hz by assumption.
    unfold exceeds. destruct zThreshold as [t| | |]; simpl in *; try discriminate.
    - apply Qltb_false. apply Qle_bool_iff in Hthr. exact Hthr.
    - reflexivity. }
  split; [|split].
  - intros i j frag. rewrite z_scores_fragments_at.
    destruct (Nat.ltb_spec i G_nChannels); [|reflexivity].
    destruct (Nat.ltb_spec j G_nChannels); [|reflexivity].
    destruct (Nat.ltb_spec frag G_nFragments); [|reflexivity].
    simpl. apply Hz; assumption.
  - apply nothing_exceeds_stores_zeros. exact Hnone.
  - apply zeros_fail_the_fit. apply nothing_exceeds_stores_zeros. exact Hnone.
Qed.

Local Open Scope Q_scope.

Lemma fold_Qplus_repeat (c : Q) (copies : nat) (a : Q) :
  fold_left Qplus (repeat c copies) a == a + inject_Z (Z.of_nat copies) * c.
Proof.
  revert a. induction copies as [|k IH]; intro a.
  - simpl. ring.
  - cbn [repeat fold_left]. rewrite IH.
    rewrite Nat2Z.inj_succ. unfold Z.succ. rewrite inject_Z_plus. ring.
Qed.

(** The mean of copies of one number is that number. *)
Lemma np_mean_repeat (c : Q) (copies : nat) :
  (0 < copies)%nat ->
  exists m, np_mean (repeat (Fin c) copies) = Fin m /\ m == c.
Proof.
  intro Hpos.
  assert (Hne : ~ inject_Z (Z.of_nat copies) == 0).
  { intro E. pose proof (inject_nat_pos Hpos) as Hlt. rewrite E in Hlt.
    apply (Qlt_irrefl _ Hlt). }
  unfold np_mean, np_sum, of_nat. rewrite repeat_length.
  rewrite <- (map_repeat c copies Fin), fold_fadd_map_Fin. simpl.
  apply Qeq_bool_false in Hne. rewrite Hne. apply Qeq_bool_false in Hne.
  eexists. split; [reflexivity|].
  rewrite fold_Qplus_repeat. field. exact Hne.
Qed.

(** The standard deviation of copies of one number is the square root of
    zero. *)
Lemma np_std_repeat (c : Q) (copies : nat) :
  (forall q, q == 0 -> feqb (np_sqrt (Fin q)) (Fin 0) = true) ->
  (0 < copies)%nat ->
  feqb (np_std np_sqrt (repeat (Fin c) copies)) (Fin 0) = true.
Proof.
  intros Hsqrt Hpos. unfold np_std. cbv zeta.
  destruct (np_mean_repeat c Hpos) as (m & -> & Hm).
  rewrite map_repeat. cbn [fsub fopp fadd fabs fmul].
  destruct (np_mean_repeat (Qabs (c + - m) * Qabs (c + - m)) Hpos) as (v & -> & Hv).
  apply Hsqrt. rewrite Hv, Hm.
  setoid_replace (c + - c) with 0 by ring. reflexivity.
Qed.

Local Close Scope Q_scope.

(** When the surrogates of every observation are copies of one whole number
    (few enough for their sum to be exact in doubles), their standard
    deviation is zero; with a threshold that is not negative every z-score is
    then zero, nothing is significant whatever the strengths, the array of
    stored values is all zeros, and the density fit raises [ValueError]. *)
Theorem constant_surrogates_fail_the_fit (zThreshold : npfloat) :
  (forall q, (q == 0)%Q -> feqb (np_sqrt (Fin q)) (Fin 0) = true) ->
  fle (Fin 0) zThreshold = true ->
  (forall i j frag, i < G_nChannels -> j < G_nChannels -> frag < G_nFragments ->
     whole_constant (surrogate_pac_values_fragments i j frag)) ->
  (forall i j frag, z_scores_fragments (filtered zThreshold) i j frag = Fin 0) /\
  (forall i j frag,
      significant_pac_values_fragments (filtered zThreshold) i j frag = Fin 0) /\
  kde_fragments scipy_kde_fit G_nChannels G_nFragments
                (significant_pac_values_fragments (filtered zThreshold))
  = Raise ValueError.
Proof.
  intros Hsqrt Hthr Hconst. apply zero_std_stores_nothing; [exact Hthr|].
  intros i j frag Hi Hj Hf.
  destruct (Hconst i j frag Hi Hj Hf) as (c & copies & Hpos & _ & ->).
  apply np_std_repeat; assumption.
Qed.

(** When the threshold is [nan] or [+inf] (as [norm.ppf] returns outside
    [[0, 1]] and at 1), no observation is significant: the array of stored
    values is all zeros, the prior cell yields [nan] everywhere, and the
    density fit raises [ValueError]. *)
Theorem degenerate_threshold_fails_the_fit (zThreshold : npfloat) :
  zThreshold = NaN \/ zThreshold = PInf ->
  (forall i j frag,
      significant_pac_values_fragments (filtered zThreshold) i j frag = Fin 0) /\
  (forall i, P_i G_nChannels G_nFragments
                 (significant_pac_values_fragments (filtered zThreshold)) i = NaN) /\
  kde_fragments scipy_kde_fit G_nChannels G_nFragments
                (significant_pac_values_fragments (filtered zThreshold))
  = Raise ValueError.
Proof.
  intro Hthr.
  assert (Hnone : forall i j frag,
             i < G_nChannels -> j < G_nChannels -> frag < G_nFragments ->
             exceeds (z_of i j frag) zThreshold = false).
  { intros i j frag _ _ _. unfold exceeds.
    destruct Hthr as [->| ->]; destruct (fabs (z_of i j frag)); reflexivity. }
  pose proof (nothing_exceeds_stores_zeros zThreshold Hnone) as Hzeros.
  destruct (zeros_fail_the_fit _ Hzeros) as [Hfit Hprior].
  split; [exact Hzeros|]. split; [exact Hprior|exact Hfit].
Qed.

End NothingSignificant.

(** ** The whole run *)

Section RunFacts.

Local Open Scope Q_scope.

Variable np_sqrt : npfloat -> npfloat.
Variable norm_ppf : npfloat -> npfloat.
Variable scipy_kde_fit : list npfloat -> result (npfloat -> npfloat).
Variables G_nChannels G_nFragments : nat.
Variable G_Alpha : Q.
Variable pac_values_fragments : array3.
Variable surrogate_pac_values_fragments : nat -> nat -> nat -> list npfloat.

Lemma P_i_given_x_mean_unit (kde : npfloat -> npfloat) (significant : array3) (i x : nat) :
  (0 < G_nFragments)%nat ->
  unit_interval (P_i_given_x_mean G_nChannels G_nFragments kde significant i x).
Proof.
  intro HF.
  destruct (@P_i_given_x_mean_at G_nChannels G_nFragments kde significant i x HF)
    as (q & E & Hq).
  exists q. split; [exact E|].
  pose proof (filter_length_le
                (fun frag => fgt (P_i_given_x_fragments G_nChannels G_nFragments kde
                                                        significant i x frag) (Fin 0))
                (range G_nFragments)) as Hle.
  unfold range in Hle at 2. rewrite length_seq in Hle.
  pose proof (inject_nat_pos HF) as HFpos.
  rewrite Hq. split.
  - apply Qle_shift_div_l; [exact HFpos|]. rewrite Qmult_0_l. apply inject_nat_nonneg.
  - apply Qle_shift_div_r; [exact HFpos|]. rewrite Qmult_1_l.
    apply inject_nat_le. exact Hle.
Qed.

(** The outcomes of a run of the cells in order.  With no fragment it
    raises [ZeroDivisionError] at the threshold.  Otherwise, with fewer than
    two positive stored values it raises [ValueError] at the density fit; with
    two or more its outcome is that of the fit, followed by the posterior
    cells.  Whenever it returns a matrix, there were fragments and at least
    two positive stored values, and every entry of the matrix is a finite
    number in [[0, 1]]. *)
Theorem BPAC_OneSubject_outcomes :
  let run := BPAC_OneSubject np_sqrt norm_ppf scipy_kde_fit G_nChannels G_nFragments
                             G_Alpha pac_values_fragments surrogate_pac_values_fragments in
  let zThreshold := norm_ppf (Fin (1 - G_Alpha / inject_Z (Z.of_nat G_nFragments))) in
  let stored :=
    significant_pac_values_fragments
      (significance_filter np_sqrt G_nChannels G_nFragments zThreshold
                           pac_values_fragments surrogate_pac_values_fragments) in
  let dataset :=
    map fabs (significant_pac_values_flat_fragments G_nChannels G_nFragments stored) in
  (G_nFragments = 0%nat -> run = Raise ZeroDivisionError) /\
  ((0 < G_nFragments)%nat -> (length dataset <= 1)%nat -> run = Raise ValueError) /\
  ((0 < G_nFragments)%nat -> (2 <= length dataset)%nat ->
   run = (kde <- scipy_kde_fit dataset ;;
          Ok (P_i_given_x_mean G_nChannels G_nFragments kde stored))) /\
  (forall m, run = Ok m ->
             (0 < G_nFragments)%nat /\ (2 <= length dataset)%nat /\
             forall i x, unit_interval (m i x)).
Proof.
  intros run zThreshold stored dataset.
  assert (Hzero : G_nFragments = 0%nat -> run = Raise ZeroDivisionError).
  { intro HF. unfold run, BPAC_OneSubject, G_zThreshold_Bonferroni, L_alpha_Bonferroni.
    rewrite HF. reflexivity. }
  assert (Hrun : (0 < G_nFragments)%nat ->
                 run = (kde <- gaussian_kde scipy_kde_fit dataset ;;
                        Ok (P_i_given_x_mean G_nChannels G_nFragments kde stored))).
  { intro HF. unfold run, BPAC_OneSubject, G_zThreshold_Bonferroni, L_alpha_Bonferroni.
    destruct (Nat.eqb_spec G_nFragments 0) as [E|_]; [lia|]. reflexivity. }
  assert (Hsmall : (0 < G_nFragments)%nat -> (length dataset <= 1)%nat ->
                   run = Raise ValueError).
  { intros HF Hlen. rewrite (Hrun HF). unfold gaussian_kde.
    apply Nat.leb_le in Hlen. rewrite Hlen. reflexivity. }
  assert (Hlarge : (0 < G_nFragments)%nat -> (2 <= length dataset)%nat ->
                   run = (kde <- scipy_kde_fit dataset ;;
                          Ok (P_i_given_x_mean G_nChannels G_nFragments kde stored))).
  { intros HF Hlen. rewrite (Hrun HF). unfold gaussian_kde.
    replace (length dataset <=? 1)%nat with false by (symmetry; apply Nat.leb_gt; lia).
    reflexivity. }
  split; [exact Hzero|]. split; [exact Hsmall|]. split; [exact Hlarge|].
  intros m Hm.
  destruct (Nat.eq_dec G_nFragments 0) as [HF|HF];
    [rewrite (Hzero HF) in Hm; discriminate|].
  assert (HF' : (0 < G_nFragments)%nat) by lia.
  destruct (Nat.le_gt_cases (length dataset) 1) as [Hlen|Hlen];
    [rewrite (Hsmall HF' Hlen) in Hm; discriminate|].
  split; [exact HF'|]. split; [exact Hlen|].
  rewrite (Hlarge HF' Hlen) in Hm.
  destruct (scipy_kde_fit dataset) as [kde|e]; simpl in Hm; [|discriminate].
  injection Hm as <-. intros i x. apply P_i_given_x_mean_unit. exact HF'.
Qed.

End RunFacts.

(** ** The samples of a fragment *)

Section SampleFacts.

Variable A : Type.

Lemma nth_error_py_slice (a b t : nat) (l : list A) :
  t < b - a -> nth_error (py_slice a b l) t = nth_error l (a + t).
Proof.
  intro Ht. unfold py_slice. rewrite nth_error_firstn.
  replace (t <? b - a) with true by (symmetry; apply Nat.ltb_lt; exact Ht).
  apply nth_error_skipn.
Qed.

Lemma sample_of_fragments (F L : nat) (x : list (list A)) (c k t : nat)
      (channel : list A) :
  nth_error x c = Some channel -> k < F -> t < L ->
  sample_of (fragments_of F L x) c k t = nth_error channel (k * L + t).
Proof.
  intros Hc Hk Ht. unfold sample_of, fragments_of.
  rewrite nth_error_map, Hc. simpl.
  rewrite nth_error_map. unfold range. rewrite nth_error_seq.
  replace (k <? F) with true by (symmetry; apply Nat.ltb_lt; exact Hk).
  simpl. apply nth_error_py_slice. lia.
Qed.

(** For [F > 0] fragments of length [L = T / F], sample [t] of fragment
    [k] of a channel is sample [k * L + t] of that channel, in the phase
    array and in the amplitude array alike; it exists. *)
Theorem fragment_sample_is_signal_sample (F T : nat) (ip_theta ia_gamma : list (list A)) :
  0 < F ->
  (forall channel, In channel ip_theta -> length channel = T) ->
  (forall channel, In channel ia_gamma -> length channel = T) ->
  exists ip_theta_fragments ia_gamma_fragments,
    Segmenter F T ip_theta ia_gamma = Ok (ip_theta_fragments, ia_gamma_fragments) /\
    forall c k t, k < F -> t < T / F ->
      (forall channel, nth_error ip_theta c = Some channel ->
         sample_of ip_theta_fragments c k t = nth_error channel (k * (T / F) + t) /\
         sample_of ip_theta_fragments c k t <> None) /\
      (forall channel, nth_error ia_gamma c = Some channel ->
         sample_of ia_gamma_fragments c k t = nth_error channel (k * (T / F) + t) /\
         sample_of ia_gamma_fragments c k t <> None).
Proof.
  intros HF Hp Ha.
  exists (fragments_of F (T / F) ip_theta), (fragments_of F (T / F) ia_gamma).
  split.
  - unfold Segmenter, L_fLength.
    destruct (Nat.eqb_spec F 0) as [E|_]; [lia|]. reflexivity.
  - intros c k t Hk Ht.
    assert (Hin : k * (T / F) + t < T).
    { pose proof (Nat.div_mod_eq T F). nia. }
    split; intros channel Hc; rewrite (@sample_of_fragments F (T / F) _ c k t channel Hc Hk Ht);
      (split; [reflexivity|]); apply nth_error_Some.
    + rewrite (Hp channel) by (eapply nth_error_In; eassumption). exact Hin.
    + rewrite (Ha channel) by (eapply nth_error_In; eassumption). exact Hin.
Qed.

End SampleFacts.

(** ** The further facts at the examples *)

Section MoreWitnesses.

Import Examples MoreExamples.

Lemma toy_density_positive_on_stored :
  density_positive_where_evaluated 2 2 toy_density stored.
Proof.
  intros i j frag _ _ _ _. unfold stored, array3_of.
  cbv beta iota delta [fmul toy_density].
  eexists. split; [reflexivity|].
  apply Qlt_shift_div_l;
    match goal with
    | |- context [Qabs ?t] => pose proof (Qabs_nonneg t)
    end; lra.
Qed.

Lemma toy_density_nonneg_on_stored :
  density_nonneg_where_evaluated 2 2 toy_density stored.
Proof.
  intros i j frag Hi Hj Hf Hpos.
  destruct (toy_density_positive_on_stored Hi Hj Hf Hpos) as (q & E & Hq).
  exists q. split; [exact E|]. apply Qlt_le_weak. exact Hq.
Qed.

Lemma stored_has_significant :
  exists i j frag, (i < 2)%nat /\ (j < 2)%nat /\ (frag < 2)%nat /\
                   fgt (stored i j frag) (Fin 0) = true.
Proof.
  exists 0%nat, 0%nat, 0%nat.
  split; [lia|]. split; [lia|]. split; [lia|]. vm_compute. reflexivity.
Qed.

Lemma toy_density_moderate_on_stored :
  density_moderate_where_evaluated 2 2 toy_density stored.
Proof.
  intros i j frag Hi Hj Hf Hpos.
  destruct i as [|[|i]]; [| |lia];
    (destruct j as [|[|j]]; [| |lia]);
    (destruct frag as [|[|frag]]; [| |lia]);
    try (vm_compute in Hpos; discriminate Hpos);
    (split; eexists;
     (split; [reflexivity|]);
     [|split]; vm_compute; discriminate).
Qed.

Lemma sqrt_exact_zero (q : Q) :
  (q == 0)%Q -> feqb (sqrt_exact (Fin q)) (Fin 0) = true.
Proof.
  intro Hq. unfold sqrt_exact.
  assert (Hle : Qle_bool 0 q = true) by (apply Qle_bool_iff; rewrite Hq; apply Qle_refl).
  rewrite Hle, (Qred_complete q 0 Hq). reflexivity.
Qed.

Lemma normalized_likelihood_column_sums_to_one_witness :
  np_sum (map (fun i => P_x_given_i 2 2 toy_density stored i 1 0) (range 2)) ~= Fin 1.
Proof.
  apply (@normalized_likelihood_column_sums_to_one 2 2 toy_density stored 1 0).
  - lia.
  - intros i Hi.
    destruct i as [|[|i]]; [| |lia];
      (eexists; split; [vm_compute; reflexivity|]; split; vm_compute; discriminate).
  - vm_compute. reflexivity.
Defined.

Lemma P_x_given_i_mean_is_support_witness :
  exists q,
    P_x_given_i_mean 2 2 toy_density stored 0 1 = Fin q /\
    (q == inject_Z (Z.of_nat (length (filter (fun frag =>
                                                fgt (P_x_given_i 2 2 toy_density stored
                                                                 0%nat 1%nat frag)
                                                    (Fin 0))
                                             (range 2))))
          / inject_Z (Z.of_nat 2))%Q /\
    (0 <= q <= 1)%Q.
Proof.
  apply (@P_x_given_i_mean_is_support 2 2 toy_density stored 0 1). lia.
Defined.

Lemma stages_yield_probabilities_witness :
  unit_interval (P_i 2 2 stored 0) /\
  unit_interval (P_x_given_i 2 2 toy_density stored 0 1 0) /\
  unit_interval (P_x 2 2 toy_density stored 1 0) /\
  unit_interval (P_i_given_x_fragments 2 2 toy_density stored 0 1 0).
Proof.
  apply (@stages_yield_probabilities 2 2 toy_density stored
           toy_density_nonneg_on_stored stored_has_significant 0 1 0)%nat.
Defined.

Lemma prior_zero_iff_never_significant_witness :
  P_i 2 2 stored 1 ~= Fin 0 <->
  (forall j frag, (j < 2)%nat -> (frag < 2)%nat -> fgt (stored 1 j frag) (Fin 0) = false).
Proof.
  apply (@prior_zero_iff_never_significant 2 2 stored stored_has_significant 1%nat). lia.
Defined.

Lemma reported_is_fraction_of_significant_fragments_witness :
  let fraction :=
    Fin (inject_Z (Z.of_nat (n_fragments_significant 2 stored 0 1)) / inject_Z (Z.of_nat 2))%Q in
  P_i_given_x_mean 2 2 toy_density stored 0 1 ~= fraction /\
  P_x_given_i_mean 2 2 toy_density stored 0 1 ~= fraction.
Proof.
  apply (@reported_is_fraction_of_significant_fragments 2 2 toy_density stored
           toy_density_moderate_on_stored 0 1)%nat; lia.
Defined.

Lemma thresholded_keeps_a_tenth_witness :
  let k := length (filter (fun frag =>
                             fgt (P_i_given_x_fragments 2 2 toy_density stored 0 1 frag)
                                 (Fin 0))
                          (range 2)) in
  P_i_given_x_thresholded 2 2 toy_density stored 0 1
  ~= (if (2 <=? 10 * k)%nat
      then Fin (inject_Z (Z.of_nat k) / inject_Z (Z.of_nat 2))%Q
      else Fin 0) /\
  ((2 <= 10)%nat ->
   P_i_given_x_thresholded 2 2 toy_density stored 0 1
   ~= P_i_given_x_mean 2 2 toy_density stored 0 1).
Proof.
  apply (@thresholded_keeps_a_tenth 2 2 toy_density stored 0 1). lia.
Defined.

Lemma constant_surrogates_fail_the_fit_witness :
  (forall i j frag,
      z_scores_fragments
        (significance_filter sqrt_exact 2 2 (Fin (196 # 100)) constant_strengths
                             constant_surrogates) i j frag = Fin 0) /\
  (forall i j frag,
      significant_pac_values_fragments
        (significance_filter sqrt_exact 2 2 (Fin (196 # 100)) constant_strengths
                             constant_surrogates) i j frag = Fin 0) /\
  kde_fragments toy_fit 2 2
    (significant_pac_values_fragments
       (significance_filter sqrt_exact 2 2 (Fin (196 # 100)) constant_strengths
                            constant_surrogates))
  = Raise ValueError.
Proof.
  apply (@constant_surrogates_fail_the_fit sqrt_exact 2 2 toy_fit constant_strengths
           constant_surrogates (Fin (196 # 100))).
  - exact sqrt_exact_zero.
  - vm_compute. reflexivity.
  - intros i j frag _ _ _. exists 1%Z, 3%nat.
    split; [lia|]. split; [reflexivity|reflexivity].
Defined.

Lemma degenerate_threshold_fails_the_fit_witness :
  (forall i j frag,
      significant_pac_values_fragments
        (significance_filter sqrt_exact 2 2 PInf strengths surrogates) i j frag = Fin 0) /\
  (forall i,
      P_i 2 2 (significant_pac_values_fragments
                 (significance_filter sqrt_exact 2 2 PInf strengths surrogates)) i = NaN) /\
  kde_fragments toy_fit 2 2
    (significant_pac_values_fragments
       (significance_filter sqrt_exact 2 2 PInf strengths surrogates))
  = Raise ValueError.
Proof.
  apply (@degenerate_threshold_fails_the_fit sqrt_exact 2 2 toy_fit strengths surrogates PInf).
  right. reflexivity.
Defined.

Lemma fragment_sample_is_signal_sample_witness :
  exists ip_theta_fragments ia_gamma_fragments,
    Segmenter 3 6 six_samples six_samples = Ok (ip_theta_fragments, ia_gamma_fragments) /\
    forall c k t, (k < 3)%nat -> (t < 6 / 3)%nat ->
      (forall channel, nth_error six_samples c = Some channel ->
         sample_of ip_theta_fragments c k t = nth_error channel (k * (6 / 3) + t) /\
         sample_of ip_theta_fragments c k t <> None) /\
      (forall channel, nth_error six_samples c = Some channel ->
         sample_of ia_gamma_fragments c k t = nth_error channel (k * (6 / 3) + t) /\
         sample_of ia_gamma_fragments c k t <> None).
Proof.
  apply (@fragment_sample_is_signal_sample nat 3 6 six_samples six_samples).
  - lia.
  - intros channel [<-|[<-|[]]]; reflexivity.
  - intros channel [<-|[<-|[]]]; reflexivity.
Defined.

End MoreWitnesses.

(** ** The size of the pooled population *)

Section PopulationSize.

Lemma length_flat_map (A B : Type) (f : A -> list B) (l : list A) :
  length (flat_map f l) = list_sum (map (fun x => length (f x)) l).
Proof.
  induction l as [|x l IH]; simpl; [reflexivity|].
  rewrite length_app, IH. reflexivity.
Qed.

Lemma list_sum_zero (A : Type) (l : list A) : list_sum (map (fun _ => 0) l) = 0.
Proof. induction l as [|x l IH]; simpl; [reflexivity|exact IH]. Qed.

(** Two nested sums may be exchanged. *)
Lemma list_sum_swap (A B : Type) (f : A -> B -> nat) (la : list A) (lb : list B) :
  list_sum (map (fun a => list_sum (map (fun b => f a b) lb)) la)
  = list_sum (map (fun b => list_sum (map (fun a => f a b) la)) lb).
Proof.
  induction la as [|a la IH]; simpl.
  - symmetry. apply list_sum_zero.
  - rewrite IH. symmetry. apply list_sum_map_add.
Qed.

Lemma list_sum_ext (A : Type) (f g : A -> nat) (l : list A) :
  (forall x, f x = g x) -> list_sum (map f l) = list_sum (map g l).
Proof. intro H. f_equal. apply map_ext. exact H. Qed.

Variables G_nChannels G_nFragments : nat.
Variable significant : array3.

Local Abbreviation positive i j frag :=
  (if fgt (significant i%nat j%nat frag%nat) (Fin 0) then 1 else 0).

Lemma dataset_size_as_sum :
  length (significant_pac_values_flat_fragments G_nChannels G_nFragments significant)
  = list_sum (map (fun i =>
      list_sum (map (fun j =>
        list_sum (map (fun frag => positive i j frag) (range G_nFragments)))
                    (range G_nChannels)))
                  (range G_nChannels)).
Proof.
  unfold significant_pac_values_flat_fragments, flatten3.
  rewrite length_map, filter_flat_map, length_flat_map.
  apply list_sum_ext. intro i.
  rewrite filter_flat_map, length_flat_map.
  apply list_sum_ext. intro j.
  induction (range G_nFragments) as [|frag l IH]; simpl; [reflexivity|].
  destruct (fgt (significant i j frag) (Fin 0)); simpl; rewrite IH; reflexivity.
Qed.

Lemma n_significant_as_sum :
  n_significant G_nChannels G_nFragments significant
  = list_sum (map (fun frag =>
      list_sum (map (fun i =>
        list_sum (map (fun j => positive i j frag) (range G_nChannels)))
                    (range G_nChannels)))
                  (range G_nFragments)).
Proof.
  unfold n_significant, observations.
  rewrite filter_flat_map, length_flat_map.
  apply list_sum_ext. intro frag.
  rewrite filter_flat_map, length_flat_map.
  apply list_sum_ext. intro i.
  induction (range G_nChannels) as [|j l IH]; simpl; [reflexivity|].
  destruct (fgt (significant i j frag) (Fin 0)); simpl; rewrite IH; reflexivity.
Qed.

(** The number of values that the density is fitted on is the number of
    significant observations that the prior cell counts: the length of the
    pooled dataset equals the total by which the prior counts are divided. *)
Theorem dataset_size_is_prior_total :
  length (map fabs (significant_pac_values_flat_fragments G_nChannels G_nFragments
                                                          significant))
  = n_significant G_nChannels G_nFragments significant /\
  total_significant_pacs G_nChannels G_nFragments significant
  ~= of_nat (length (map fabs (significant_pac_values_flat_fragments
                                 G_nChannels G_nFragments significant))).
Proof.
  assert (Hlen : length (map fabs (significant_pac_values_flat_fragments
                                     G_nChannels G_nFragments significant))
                 = n_significant G_nChannels G_nFragments significant).
  { rewrite length_map, dataset_size_as_sum, n_significant_as_sum.
    rewrite (list_sum_swap
               (fun frag i => list_sum (map (fun j => positive i j frag) (range G_nChannels)))).
    apply list_sum_ext. intro i.
    apply list_sum_swap. }
  split; [exact Hlen|].
  rewrite Hlen.
  rewrite (total_finite G_nChannels G_nFragments significant).
  pose proof (total_value G_nChannels G_nFragments significant) as Hv.
  rewrite (total_finite G_nChannels G_nFragments significant) in Hv.
  exact Hv.
Qed.

End PopulationSize.

(** ** Raising the threshold downstream *)

Section StoredAntitone.

Variable np_sqrt : npfloat -> npfloat.
Variables G_nChannels G_nFragments : nat.
Variable pac_values_fragments : array3.
Variable surrogate_pac_values_fragments : nat -> nat -> nat -> list npfloat.

Local Abbreviation stored_at zThreshold :=
  (significant_pac_values_fragments
     (significance_filter np_sqrt G_nChannels G_nFragments zThreshold
        pac_values_fragments surrogate_pac_values_fragments)).

Lemma stored_positive_kept (t1 t2 : npfloat) (i j frag : nat) :
  fle t1 t2 = true ->
  fgt (stored_at t2 i j frag) (Fin 0) = true ->
  stored_at t1 i j frag = stored_at t2 i j frag.
Proof.
  intros Hle Hpos. rewrite significant_pac_values_fragments_at in Hpos |- *.
  rewrite significant_pac_values_fragments_at.
  destruct ((i <? G_nChannels) && (j <? G_nChannels) && (frag <? G_nFragments));
    [|reflexivity].
  destruct (exceeds _ t2) eqn:E2; [|discriminate].
  rewrite (exceeds_mono _ _ _ Hle E2). reflexivity.
Qed.

(** For thresholds [t1 <= t2], every stored value that is positive at [t2]
    is stored unchanged at [t1]; so the count of significant observations of
    each destination, and their total, which make the prior, can only
    shrink when the threshold is raised. *)
Theorem stored_positive_antitone (t1 t2 : npfloat) :
  fle t1 t2 = true ->
  (forall i j frag, fgt (stored_at t2 i j frag) (Fin 0) = true ->
                    stored_at t1 i j frag = stored_at t2 i j frag) /\
  (forall i, n_significant_to G_nChannels G_nFragments (stored_at t2) i
             <= n_significant_to G_nChannels G_nFragments (stored_at t1) i) /\
  n_significant G_nChannels G_nFragments (stored_at t2)
  <= n_significant G_nChannels G_nFragments (stored_at t1).
Proof.
  intro Hle.
  assert (Hobs : forall obs, stored_positive (stored_at t2) obs = true ->
                             stored_positive (stored_at t1) obs = true).
  { intros [[frag i] j] Hpos. simpl in *.
    rewrite (@stored_positive_kept t1 t2 i j frag Hle Hpos). exact Hpos. }
  split; [|split].
  - intros i j frag. apply stored_positive_kept. exact Hle.
  - intro i. unfold n_significant_to. apply filter_length_mono.
    intros obs _ H. apply andb_true_iff in H. destruct H as [Hp Hd].
    rewrite (Hobs obs Hp), Hd. reflexivity.
  - unfold n_significant. apply filter_length_mono. intros obs _. apply Hobs.
Qed.

End StoredAntitone.

Lemma stored_positive_antitone_witness :
  (forall i j frag,
      fgt (significant_pac_values_fragments
             (significance_filter Examples.sqrt_exact 2 2 (Fin 4) Examples.strengths
                                  Examples.surrogates) i j frag) (Fin 0) = true ->
      significant_pac_values_fragments
        (significance_filter Examples.sqrt_exact 2 2 (Fin (196 # 100)) Examples.strengths
                             Examples.surrogates) i j frag
      = significant_pac_values_fragments
          (significance_filter Examples.sqrt_exact 2 2 (Fin 4) Examples.strengths
                               Examples.surrogates) i j frag) /\
  (forall i,
      n_significant_to 2 2
        (significant_pac_values_fragments
           (significance_filter Examples.sqrt_exact 2 2 (Fin 4) Examples.strengths
                                Examples.surrogates)) i
      <= n_significant_to 2 2
           (significant_pac_values_fragments
              (significance_filter Examples.sqrt_exact 2 2 (Fin (196 # 100))
                                   Examples.strengths Examples.surrogates)) i) /\
  n_significant 2 2
    (significant_pac_values_fragments
       (significance_filter Examples.sqrt_exact 2 2 (Fin 4) Examples.strengths
                            Examples.surrogates))
  <= n_significant 2 2
       (significant_pac_values_fragments
          (significance_filter Examples.sqrt_exact 2 2 (Fin (196 # 100)) Examples.strengths
                               Examples.surrogates)).
Proof.
  apply (@stored_positive_antitone Examples.sqrt_exact 2 2 Examples.strengths
           Examples.surrogates (Fin (196 # 100)) (Fin 4)).
  reflexivity.
Defined.
